(** * face_detection.py: the detection-to-identity pipeline of [FaceDetectionApp]

    A shallow embedding of [src/face_detection.py]: the frame loop
    ([detection_loop]) with its camera error handling, the duplicate gate over
    [saved_faces], template matching against [known_faces], the enrolment of
    unknown faces ([process_unknown_faces], [add_new_person]) and the display
    queue shared with [update_gui].

    Conventions.
    - Python floats ([time.time()], the [max_val] of [cv2.minMaxLoc], the two
      sliders) are rationals [Q]: the code only subtracts and compares them.
    - Pixel coordinates and counters are [Z].
    - OpenCV is outside the repository: its calls are parameters of the
      section below (images are an abstract type), and the values the camera
      and the cascade classifier deliver are inputs of each loop iteration.
    - Calls on the camera, status messages and the per-face outcome drawn on
      the frame are collected in a trace of [action]s. *)

From Stdlib Require Import Ascii String DecimalString.
From Stdlib Require DecimalPos DecimalZ.
From Stdlib Require Import List Sorted Permutation ZArith QArith Bool Lia Lqa.
Import ListNotations.

Open Scope Z_scope.

(** ** Comparisons on floats-as-rationals *)

Definition Qltb (x y : Q) : bool := negb (Qle_bool y x).

(** ** Constants set in [__init__] and never reassigned *)

Definition DISTANCE_THRESHOLD : Z := 50.
Definition BUFFER_SIZE : nat := 3.
Definition MIN_RECOGNITION_SIZE : Z := 100.
Definition max_camera_errors : Z := 5.
Definition frame_queue_maxlen : nat := 5.
Definition PROCESS_INTERVAL : Q := 5.
(** The literal [0.65] of [process_unknown_faces]. *)
Definition CLUSTER_THRESHOLD : Q := 65 # 100.

Definition Unknown : string := "Unknown".

(** [f"Person_{n}"] *)
Definition person_name (n : Z) : string :=
  ("Person_" ++ NilZero.string_of_int (Z.to_int n))%string.

(** [distance < DISTANCE_THRESHOLD] for
    [distance = ((cx - sx)**2 + (cy - sy)**2)**0.5]: the centres are integers,
    and the square root of an integer is below 50 exactly when the integer is
    below 2500. *)
Definition closer_than (thr cx cy sx sy : Z) : bool :=
  (cx - sx) * (cx - sx) + (cy - sy) * (cy - sy) <? thr * thr.

(** An entry of [saved_faces]: [(center_x, center_y, current_time)]. *)
Definition sighting : Type := Z * Z * Q.

Definition sx (s : sighting) : Z := fst (fst s).
Definition sy (s : sighting) : Z := snd (fst s).
Definition st (s : sighting) : Q := snd s.

(** The body of the loop at lines 861-866 for one saved face. *)
Definition blocks (save_interval : Q) (cx cy : Z) (now : Q) (s : sighting) : bool :=
  closer_than DISTANCE_THRESHOLD cx cy (sx s) (sy s)
  && Qltb (now - st s) save_interval.

(** Lines 858-866: [save_face] stays [True] unless some saved face [break]s
    the loop. *)
Definition save_face_of (save_interval : Q) (saved : list sighting)
    (cx cy : Z) (now : Q) : bool :=
  negb (existsb (blocks save_interval cx cy now) saved).

(** Line 1007: the list comprehension that drops old saved faces. *)
Definition clean_saved_faces (save_interval : Q) (now : Q)
    (saved : list sighting) : list sighting :=
  filter (fun s => Qltb (now - st s) save_interval) saved.

(** ** The display queue: [deque(maxlen=5)], left end first *)

(** Lines 1011-1012. *)
Definition enqueue_frame {F : Type} (q : list F) (f : F) : list F :=
  if (length q <? frame_queue_maxlen)%nat then q ++ [f] else q.

(** Lines 1144-1145 of [update_gui]: the frame handed to the video label, and
    the queue left behind. *)
Definition poll_frame {F : Type} (q : list F) : option F * list F :=
  match q with
  | [] => (None, [])
  | f :: rest => (Some f, rest)
  end.

Section Pipeline.

(** ** OpenCV, as the code uses it *)

Variable img : Type.
(** [face.shape] of a grayscale image: [(h, w)]. *)
Variable shape : img -> Z * Z.
(** [cv2.resize(_, (80, 80))] *)
Variable resize80 : img -> img.
(** [cv2.cvtColor(_, cv2.COLOR_BGR2GRAY)] and [cv2.COLOR_GRAY2BGR] *)
Variable bgr2gray : img -> img.
Variable gray2bgr : img -> img.
(** [cv2.matchTemplate(a, b, cv2.TM_CCOEFF_NORMED)] followed by
    [cv2.minMaxLoc], on two 80x80 images: the single correlation value. *)
Variable ncc : img -> img -> Q.

(** ** The application state ([self]) *)

(** [self.cap]: [None], or a [cv2.VideoCapture] whose [isOpened()] is the
    boolean; a capture is opened or not from its construction on. *)
Definition capture : Type := option bool.

Record App : Type := mkApp {
  running : bool;
  cap : capture;
  camera_error_count : Z;
  saved_faces : list sighting;
  SAVE_INTERVAL : Q;
  MATCH_THRESHOLD : Q;
  known_faces : list img;
  known_face_names : list string;
  next_person_id : Z;
  unknown_faces_buffer : list img;
  last_process_time : Q;
  frame_queue : list img
}.

(** What the loop does to the outside: camera calls, [status_queue.put], the
    value of [camera_error_count] each time it is compared with
    [max_camera_errors], [log_attendance], and for each face the colour of its
    rectangle ([save_face]) and its label. *)
Inductive action : Type :=
| CamOpen (opened : bool)
| CamRead (ret : bool)
| CamRelease
| Status (msg : string)
| ErrorCount (n : Z)
| LogAttendance (name : string)
| FaceSeen (cx cy : Z) (now : Q) (save_face : bool) (name : string).

(** ** Field updates *)

Definition set_running (b : bool) (a : App) : App :=
  mkApp b (cap a) (camera_error_count a) (saved_faces a) (SAVE_INTERVAL a)
    (MATCH_THRESHOLD a) (known_faces a) (known_face_names a) (next_person_id a)
    (unknown_faces_buffer a) (last_process_time a) (frame_queue a).

Definition set_cap (c : capture) (a : App) : App :=
  mkApp (running a) c (camera_error_count a) (saved_faces a) (SAVE_INTERVAL a)
    (MATCH_THRESHOLD a) (known_faces a) (known_face_names a) (next_person_id a)
    (unknown_faces_buffer a) (last_process_time a) (frame_queue a).

Definition set_camera_error_count (n : Z) (a : App) : App :=
  mkApp (running a) (cap a) n (saved_faces a) (SAVE_INTERVAL a)
    (MATCH_THRESHOLD a) (known_faces a) (known_face_names a) (next_person_id a)
    (unknown_faces_buffer a) (last_process_time a) (frame_queue a).

Definition set_saved_faces (l : list sighting) (a : App) : App :=
  mkApp (running a) (cap a) (camera_error_count a) l (SAVE_INTERVAL a)
    (MATCH_THRESHOLD a) (known_faces a) (known_face_names a) (next_person_id a)
    (unknown_faces_buffer a) (last_process_time a) (frame_queue a).

Definition set_unknown_faces_buffer (l : list img) (a : App) : App :=
  mkApp (running a) (cap a) (camera_error_count a) (saved_faces a)
    (SAVE_INTERVAL a) (MATCH_THRESHOLD a) (known_faces a) (known_face_names a)
    (next_person_id a) l (last_process_time a) (frame_queue a).

Definition set_last_process_time (t : Q) (a : App) : App :=
  mkApp (running a) (cap a) (camera_error_count a) (saved_faces a)
    (SAVE_INTERVAL a) (MATCH_THRESHOLD a) (known_faces a) (known_face_names a)
    (next_person_id a) (unknown_faces_buffer a) t (frame_queue a).

Definition set_frame_queue (q : list img) (a : App) : App :=
  mkApp (running a) (cap a) (camera_error_count a) (saved_faces a)
    (SAVE_INTERVAL a) (MATCH_THRESHOLD a) (known_faces a) (known_face_names a)
    (next_person_id a) (unknown_faces_buffer a) (last_process_time a) q.

(** ** [add_new_person] (lines 1106-1124) *)

Definition add_new_person (face_img : img) (a : App) : App * list action :=
  let new_name := person_name (next_person_id a) in
  let gray_face := resize80 (bgr2gray face_img) in
  (mkApp (running a) (cap a) (camera_error_count a) (saved_faces a)
     (SAVE_INTERVAL a) (MATCH_THRESHOLD a)
     (known_faces a ++ [gray_face])
     (known_face_names a ++ [new_name])
     (next_person_id a + 1)
     (unknown_faces_buffer a) (last_process_time a) (frame_queue a),
   [Status ("Added new person: " ++ new_name)%string]).

(** ** [process_unknown_faces] (lines 1067-1104) *)

(** Lines 1077-1084: the first group whose first member scores above 0.65
    takes the face; [None] when no group does ([matched] stays [False]).
    A group is never empty. *)
Fixpoint join_group (gray_face : img) (groups : list (list img))
    : option (list (list img)) :=
  match groups with
  | [] => None
  | group :: rest =>
      match group with
      | g0 :: _ =>
          if Qltb CLUSTER_THRESHOLD (ncc gray_face g0)
          then Some ((group ++ [gray_face]) :: rest)
          else option_map (cons group) (join_group gray_face rest)
      | [] => option_map (cons group) (join_group gray_face rest)
      end
  end.

(** Lines 1071-1087. *)
Definition group_faces (buffer : list img) : list (list img) :=
  fold_left
    (fun groups face_img =>
       let gray_face := resize80 (bgr2gray face_img) in
       match join_group gray_face groups with
       | Some groups' => groups'
       | None => groups ++ [[gray_face]]
       end)
    buffer [].

(** Lines 1091-1099: [best_face] starts as [None], [best_size] as 0. *)
Definition best_face_of (group : list img) : option img :=
  fst (fold_left
         (fun (acc : option img * Z) face =>
            let '(h, w) := shape face in
            let size := h * w in
            if snd acc <? size then (Some face, size) else acc)
         group (None, 0)).

(** Lines 1089-1102. The boolean tells whether an exception left the loop:
    a [best_face] still [None] makes [cv2.cvtColor] raise, and the identities
    added before it stay. *)
Fixpoint enrol_groups (groups : list (list img)) (a : App)
    : App * list action * bool :=
  match groups with
  | [] => (a, [], false)
  | group :: rest =>
      if (2 <=? length group)%nat then
        match best_face_of group with
        | Some best_face =>
            let '(a1, out1) := add_new_person (gray2bgr best_face) a in
            let '(a2, out2, raised) := enrol_groups rest a1 in
            (a2, out1 ++ out2, raised)
        | None => (a, [], true)
        end
      else enrol_groups rest a
  end.

Definition process_unknown_faces (a : App) : App * list action * bool :=
  if (length (unknown_faces_buffer a) <? BUFFER_SIZE)%nat then (a, [], false)
  else
    let '(a1, out, raised) :=
      enrol_groups (group_faces (unknown_faces_buffer a)) a in
    if raised then (a1, out, true)
    else (set_unknown_faces_buffer [] a1, out, false).

(** ** One detected face (the body of the loop at lines 848-1004) *)

(** What the loop body reads for one face: the box after scaling (lines
    850-853), the slice of the small gray frame (line 889), the slice of the
    colour frame (line 980), and whether one of the OpenCV calls of the body
    (blur, resize, cascades, drawing) raises before the bookkeeping. *)
Record detection : Type := mkDetection {
  det_x : Z;
  det_y : Z;
  det_w : Z;
  det_h : Z;
  det_roi : img;
  det_face_img : img;
  det_cv_error : bool
}.

(** Lines 895-901. [known_face_names[i]] raises [IndexError] past the end of
    the list: [None]. *)
Fixpoint match_loop (face_roi : img) (faces : list img) (names : list string)
    (i : nat) (best_match_score : Q) (best_match_name : string)
    : option (Q * string) :=
  match faces with
  | [] => Some (best_match_score, best_match_name)
  | known_face :: rest =>
      let max_val := ncc face_roi known_face in
      if Qltb best_match_score max_val then
        match nth_error names i with
        | Some n => match_loop face_roi rest names (S i) max_val n
        | None => None
        end
      else match_loop face_roi rest names (S i) best_match_score best_match_name
  end.

(** Lines 884-904: the [name] the face is labelled with. *)
Definition recognise (a : App) (d : detection) : option string :=
  if (MIN_RECOGNITION_SIZE <=? det_w d) && (MIN_RECOGNITION_SIZE <=? det_h d)
     && (0 <? length (known_faces a))%nat
  then
    let face_roi := resize80 (det_roi d) in
    match match_loop face_roi (known_faces a) (known_face_names a) 0 0 Unknown with
    | Some (best_match_score, best_match_name) =>
        Some (if Qltb (MATCH_THRESHOLD a) best_match_score
              then best_match_name else Unknown)
    | None => None
    end
  else Some Unknown.

Definition center_x (d : detection) : Z := det_x d + det_w d / 2.
Definition center_y (d : detection) : Z := det_y d + det_h d / 2.

(** The whole body; [None] when it raises (nothing is recorded for the face
    in that case: the appends are the last statements of the body). *)
Definition process_face (current_time : Q) (d : detection) (a : App)
    : option (App * list action) :=
  if det_cv_error d then None
  else
    let cx := center_x d in
    let cy := center_y d in
    let save_face :=
      save_face_of (SAVE_INTERVAL a) (saved_faces a) cx cy current_time in
    match recognise a d with
    | None => None
    | Some name =>
        let seen := FaceSeen cx cy current_time save_face name in
        if save_face && String.eqb name Unknown then
          (* lines 979-994 *)
          Some (set_saved_faces (saved_faces a ++ [(cx, cy, current_time)])
                  (set_unknown_faces_buffer
                     (unknown_faces_buffer a ++ [det_face_img d]) a),
                [seen])
        else if save_face then
          (* lines 995-1004 *)
          Some (set_saved_faces (saved_faces a ++ [(cx, cy, current_time)]) a,
                [seen; LogAttendance name])
        else Some (a, [seen])
    end.

(** The [for] loop over [faces]; the boolean tells whether a body raised, and
    the faces before it have been handled. *)
Fixpoint process_faces (current_time : Q) (ds : list detection) (a : App)
    : App * list action * bool :=
  match ds with
  | [] => (a, [], false)
  | d :: rest =>
      match process_face current_time d a with
      | None => (a, [], true)
      | Some (a1, out1) =>
          let '(a2, out2, raised) := process_faces current_time rest a1 in
          (a2, out1 ++ out2, raised)
      end
  end.

(** ** One frame (lines 807-1012) *)

(** What a successful [cap.read()] leads to: [time.time()], whether one of
    the OpenCV calls before the face loop (resize, colour conversion, the
    cascade) raises, the faces found by the cascade, and the frame as drawn,
    converted to RGB. *)
Record frame_in : Type := mkFrame {
  current_time : Q;
  frame_cv_error : bool;
  faces : list detection;
  frame_rgb : img
}.

(** The FPS message, the video writer and the pacing [sleep] are left out. *)
Definition process_frame (f : frame_in) (a : App) : App * list action * bool :=
  let a0 := set_camera_error_count 0 a in
  let now := current_time f in
  if frame_cv_error f then (a0, [], true)
  else
  let '(a1, out1, raised1) :=
    if Qltb PROCESS_INTERVAL (now - last_process_time a0) then
      let '(a', out, raised) := process_unknown_faces a0 in
      if raised then (a', out, true)
      else (set_last_process_time now a', out, false)
    else (a0, [], false) in
  if raised1 then (a1, out1, true)
  else
    let '(a2, out2, raised2) := process_faces now (faces f) a1 in
    if raised2 then (a2, out1 ++ out2, true)
    else
      let a3 :=
        set_saved_faces
          (clean_saved_faces (SAVE_INTERVAL a2) now (saved_faces a2)) a2 in
      (set_frame_queue (enqueue_frame (frame_queue a3) (frame_rgb f)) a3,
       out1 ++ out2, false).

(** ** The capture session *)

(** [stop_detection] (lines 608-621); the widgets and the recorder are left
    out. *)
Definition stop_detection (a : App) : App * list action :=
  let a1 := set_running false a in
  match cap a1 with
  | Some _ => (set_cap None a1, [CamRelease])
  | None => (a1, [])
  end.

(** The pattern of lines 773-777, 791-795 and 1026-1030: count the error and
    stop when the budget is exceeded. The boolean tells whether the loop
    [return]s. *)
Definition count_error (stop_msg : string) (a : App) : App * list action * bool :=
  let a1 := set_camera_error_count (camera_error_count a + 1) a in
  if max_camera_errors <? camera_error_count a1 then
    let '(a2, out) := stop_detection a1 in
    (a2, [ErrorCount (camera_error_count a1); Status stop_msg] ++ out, true)
  else (a1, [ErrorCount (camera_error_count a1)], false).

(** What the camera answers in one iteration of the loop: whether the capture
    built at line 771 is opened, what [cap.read()] returns ([None] for
    [ret == False]), and whether the capture built at line 798 is opened.
    Only the answers to the calls the iteration makes are looked at. *)
Record event : Type := mkEvent {
  ev_open : bool;
  ev_read : option frame_in;
  ev_reopen : bool
}.

Definition error_status : string := "Error in detection loop".

(** Lines 789-1031, from [cap.read()] on. *)
Definition read_and_process (ev : event) (a : App) : App * list action :=
  match ev_read ev with
  | None =>
      let '(a1, out1, stopped) :=
        count_error "Camera error. Stopping detection." a in
      if stopped then (a1, CamRead false :: out1)
      else
        let a2 := set_cap (Some (ev_reopen ev)) a1 in
        let a3 := if ev_reopen ev then set_camera_error_count 0 a2 else a2 in
        (a3, CamRead false :: out1 ++ [CamRelease; CamOpen (ev_reopen ev)])
  | Some f =>
      let '(a1, out1, raised) := process_frame f a in
      if raised then
        let '(a2, out2, _) :=
          count_error "Too many errors. Stopping detection." a1 in
        (a2, CamRead true :: out1 ++ Status error_status :: out2)
      else (a1, CamRead true :: out1)
  end.

Definition isOpened (c : capture) : bool :=
  match c with
  | Some opened => opened
  | None => false
  end.

(** One iteration of the [while] loop (lines 767-1031). *)
Definition iteration (ev : event) (a : App) : App * list action :=
  if negb (isOpened (cap a)) then
    let a1 := set_cap (Some (ev_open ev)) a in
    let out0 :=
      [Status "Camera disconnected. Attempting to reconnect...";
       CamOpen (ev_open ev)] in
    if negb (ev_open ev) then
      let '(a2, out, _) :=
        count_error "Camera error. Stopping detection." a1 in
      (a2, out0 ++ out)
    else
      let '(a2, out) :=
        read_and_process ev (set_camera_error_count 0 a1) in
      (a2, out0 ++ Status "Camera reconnected." :: out)
  else read_and_process ev a.

(** [detection_loop]: [while self.running], one [event] per iteration. Every
    [return] of the body comes right after [stop_detection], which clears
    [running]. *)
Fixpoint detection_loop (evs : list event) (a : App) : App * list action :=
  match evs with
  | [] => (a, [])
  | ev :: rest =>
      if running a then
        let '(a1, out1) := iteration ev a in
        let '(a2, out2) := detection_loop rest a1 in
        (a2, out1 ++ out2)
      else (a, [])
  end.

(** [start_detection] (lines 568-606), given whether the camera opens. *)
Definition start_detection (opened : bool) (a : App) : App * list action :=
  if running a then (a, [])
  else
    let a1 := set_cap (Some opened) (set_running true a) in
    if negb opened then
      let '(a2, out) := stop_detection a1 in
      (a2, CamOpen false :: Status "Error: Could not open camera" :: out)
    else (set_camera_error_count 0 a1, [CamOpen true]).

(** The two sliders (lines 506-510). *)
Definition update_save_interval (value : Q) (a : App) : App :=
  mkApp (running a) (cap a) (camera_error_count a) (saved_faces a) value
    (MATCH_THRESHOLD a) (known_faces a) (known_face_names a) (next_person_id a)
    (unknown_faces_buffer a) (last_process_time a) (frame_queue a).

Definition update_match_threshold (value : Q) (a : App) : App :=
  mkApp (running a) (cap a) (camera_error_count a) (saved_faces a)
    (SAVE_INTERVAL a) value (known_faces a) (known_face_names a)
    (next_person_id a) (unknown_faces_buffer a) (last_process_time a)
    (frame_queue a).

(** [update_gui] (lines 1141-1152): the frame put on the video label, if
    any. *)
Definition update_gui (a : App) : App * option img :=
  let '(shown, q) := poll_frame (frame_queue a) in
  (set_frame_queue q a, shown).

(** [n] polls in a row, with the frames they showed. *)
Fixpoint poll_times (n : nat) (a : App) : App * list (option img) :=
  match n with
  | O => (a, [])
  | S k =>
      let '(a1, shown) := update_gui a in
      let '(a2, more) := poll_times k a1 in
      (a2, shown :: more)
  end.

(** The sightings the loop accepted, read off its trace. *)
Definition accepted_of (act : action) : list sighting :=
  match act with
  | FaceSeen cx cy now true _ => [(cx, cy, now)]
  | _ => []
  end.

Definition accepted (out : list action) : list sighting :=
  flat_map accepted_of out.

(** The [camera_error_count] values compared with the budget. *)
Definition error_count_of (act : action) : list Z :=
  match act with
  | ErrorCount n => [n]
  | _ => []
  end.

Definition error_counts (out : list action) : list Z :=
  flat_map error_count_of out.

(** The number of [cap.read()] calls. *)
Definition is_read (act : action) : bool :=
  match act with
  | CamRead _ => true
  | _ => false
  end.

Definition reads (out : list action) : nat := length (filter is_read out).

(** ** Notions used in the statements *)

(** Two sightings the gate is meant to keep apart: centres closer than
    [DISTANCE_THRESHOLD], timestamps less than the save interval apart. *)
Definition conflict (save_interval : Q) (s1 s2 : sighting) : Prop :=
  closer_than DISTANCE_THRESHOLD (sx s1) (sy s1) (sx s2) (sy s2) = true /\
  (st s1 - st s2 < save_interval)%Q /\
  (st s2 - st s1 < save_interval)%Q.

(** The timestamps of the frames the camera delivers, in order. *)
Definition frame_times (evs : list event) : list Q :=
  flat_map
    (fun ev => match ev_read ev with Some f => [current_time f] | None => [] end)
    evs.

(** What follows the first failed [cap.read()] in a trace. *)
Fixpoint after_failed_read (out : list action) : option (list action) :=
  match out with
  | [] => None
  | CamRead false :: rest => Some rest
  | _ :: rest => after_failed_read rest
  end.

(** An iteration that fails at the camera: the read fails, or, with no opened
    capture, the attempt to open one fails. *)
Definition camera_fails (ev : event) (a : App) : Prop :=
  if isOpened (cap a) then ev_read ev = None else ev_open ev = false.

(** The iterations of a run in which [cap.read()] fails. *)
Definition read_fails (ev : event) : bool :=
  match ev_read ev with
  | None => true
  | Some _ => false
  end.

Definition failed_reads (evs : list event) : nat :=
  length (filter read_fails evs).

(** The exceptions caught by the handler of line 1024, each reported by its
    status message. *)
Definition is_caught (act : action) : bool :=
  match act with
  | Status msg => String.eqb msg error_status
  | _ => false
  end.

Definition caught (out : list action) : nat := length (filter is_caught out).

(** An iteration that goes as far as the re-open of line 798: the read fails
    and, if the capture was opened, the error it counts is within the budget;
    if it was not, the capture built at line 771 is opened (and the count
    starts again from 0). *)
Definition reaches_reopen (ev : event) (a : App) : Prop :=
  ev_read ev = None /\
  if isOpened (cap a) then camera_error_count a < max_camera_errors
  else ev_open ev = true.

(** Lines 1073-1074: what a buffered crop is turned into before grouping. *)
Definition normalised (face_img : img) : img := resize80 (bgr2gray face_img).

(** Two normalised crops that score above 0.65 against each other, and two
    that score at most 0.65 against each other. *)
Definition similar (x y : img) : Prop :=
  (CLUSTER_THRESHOLD < ncc x y)%Q /\ (CLUSTER_THRESHOLD < ncc y x)%Q.

Definition distinct (x y : img) : Prop :=
  (ncc x y <= CLUSTER_THRESHOLD)%Q /\ (ncc y x <= CLUSTER_THRESHOLD)%Q.

(** * Properties *)

Ltac splits := repeat match goal with |- _ /\ _ => split end.

(** ** Comparisons *)

Lemma Qltb_true (x y : Q) : Qltb x y = true <-> (x < y)%Q.
Proof.
  unfold Qltb. rewrite negb_true_iff, <- not_true_iff_false, Qle_bool_iff.
  split; intro H; [apply Qnot_le_lt | apply Qlt_not_le]; exact H.
Qed.

Lemma Qltb_false (x y : Q) : Qltb x y = false <-> (y <= x)%Q.
Proof.
  unfold Qltb. rewrite negb_false_iff. apply Qle_bool_iff.
Qed.

(** ** The identity matcher *)

(** What the scan of the gallery returns: either nothing beat the starting
    score, or the first template with the greatest score and its name. *)
Lemma match_loop_spec (face_roi : img) (names : list string) :
  forall (gallery : list img) (i : nat) (best : Q) (best_name : string),
    (i + length gallery <= length names)%nat ->
    exists b n,
      match_loop face_roi gallery names i best best_name = Some (b, n) /\
      ((b = best /\ n = best_name /\
        forall kf, In kf gallery -> (ncc face_roi kf <= best)%Q)
       \/
       (exists j kf,
           nth_error gallery j = Some kf /\
           b = ncc face_roi kf /\
           nth_error names (i + j) = Some n /\
           (best < b)%Q /\
           (forall kf', In kf' gallery -> (ncc face_roi kf' <= b)%Q) /\
           (forall j' kf', (j' < j)%nat -> nth_error gallery j' = Some kf' ->
                           (ncc face_roi kf' < b)%Q))).
Proof.
  induction gallery as [|kf rest IH]; intros i best best_name Hlen; simpl in *.
  - exists best, best_name. split; [reflexivity|]. left. intuition.
  - destruct (Qltb best (ncc face_roi kf)) eqn:Hcmp.
    + apply Qltb_true in Hcmp.
      destruct (nth_error names i) as [n0|] eqn:Hn0.
      2:{ apply nth_error_None in Hn0. lia. }
      destruct (IH (S i) (ncc face_roi kf) n0) as (b & n & Hrun & Hres); [lia|].
      exists b, n. split; [exact Hrun|]. right.
      destruct Hres as [(-> & -> & Hall) | (j & kf1 & Hj & -> & Hname & Hlt & Hall & Hearly)].
      * exists 0%nat, kf. simpl. rewrite Nat.add_0_r.
        repeat split; auto.
        -- intros kf' [<-|Hin]; [apply Qle_refl | auto].
        -- intros j' kf' Hj'. lia.
      * exists (S j), kf1. simpl.
        replace (i + S j)%nat with (S i + j)%nat by lia.
        repeat split; auto.
        -- eapply Qlt_trans; eassumption.
        -- intros kf' [<-|Hin]; [apply Qlt_le_weak; exact Hlt | auto].
        -- intros [|j'] kf' Hj' Hnth; simpl in Hnth.
           ++ injection Hnth as <-. exact Hlt.
           ++ apply (Hearly j'); [lia | exact Hnth].
    + apply Qltb_false in Hcmp.
      destruct (IH (S i) best best_name) as (b & n & Hrun & Hres); [lia|].
      exists b, n. split; [exact Hrun|].
      destruct Hres as [(-> & -> & Hall) | (j & kf1 & Hj & -> & Hname & Hlt & Hall & Hearly)].
      * left. repeat split; auto. intros kf' [<-|Hin]; auto.
      * right. exists (S j), kf1. simpl.
        replace (i + S j)%nat with (S i + j)%nat by lia.
        repeat split; auto.
        -- intros kf' [<-|Hin]; [|auto].
           apply Qlt_le_weak. eapply Qle_lt_trans; eassumption.
        -- intros [|j'] kf' Hj' Hnth; simpl in Hnth.
           ++ injection Hnth as <-. eapply Qle_lt_trans; eassumption.
           ++ apply (Hearly j'); [lia | exact Hnth].
Qed.

Lemma recognise_large (a : App) (d : detection) :
  MIN_RECOGNITION_SIZE <= det_w d ->
  MIN_RECOGNITION_SIZE <= det_h d ->
  known_faces a <> [] ->
  recognise a d =
    match match_loop (resize80 (det_roi d)) (known_faces a)
            (known_face_names a) 0 0 Unknown with
    | Some (best_match_score, best_match_name) =>
        Some (if Qltb (MATCH_THRESHOLD a) best_match_score
              then best_match_name else Unknown)
    | None => None
    end.
Proof.
  intros Hw Hh Hne. unfold recognise.
  apply Z.leb_le in Hw. apply Z.leb_le in Hh. rewrite Hw, Hh.
  destruct (known_faces a); [congruence | reflexivity].
Qed.

(** C3, general part: with a face of at least 100x100 and a non-empty
    gallery, the matcher returns the name of the first template with the
    greatest score when that score is above [MATCH_THRESHOLD], and "Unknown"
    when no score is above it. *)
Lemma recognise_threshold (a : App) (d : detection) :
  MIN_RECOGNITION_SIZE <= det_w d ->
  MIN_RECOGNITION_SIZE <= det_h d ->
  known_faces a <> [] ->
  length (known_face_names a) = length (known_faces a) ->
  (0 <= MATCH_THRESHOLD a)%Q ->
  let face_roi := resize80 (det_roi d) in
  ((exists kf, In kf (known_faces a) /\
               (MATCH_THRESHOLD a < ncc face_roi kf)%Q) ->
   exists i kf name,
     nth_error (known_faces a) i = Some kf /\
     nth_error (known_face_names a) i = Some name /\
     (forall kf', In kf' (known_faces a) ->
                  (ncc face_roi kf' <= ncc face_roi kf)%Q) /\
     (forall j kf', (j < i)%nat -> nth_error (known_faces a) j = Some kf' ->
                    (ncc face_roi kf' < ncc face_roi kf)%Q) /\
     recognise a d = Some name)
  /\
  ((forall kf, In kf (known_faces a) ->
               (ncc face_roi kf <= MATCH_THRESHOLD a)%Q) ->
   recognise a d = Some Unknown).
Proof.
  intros Hw Hh Hne Hlen Hthr face_roi.
  rewrite (recognise_large a d Hw Hh Hne). fold face_roi.
  destruct (match_loop_spec face_roi (known_face_names a) (known_faces a)
              0 0 Unknown) as (b & n & Hrun & Hres); [simpl; lia|].
  rewrite Hrun. split.
  - intros (kf0 & Hin0 & Hgt0).
    destruct Hres as [(-> & -> & Hall) | (j & kf & Hj & -> & Hname & Hlt & Hall & Hearly)].
    + exfalso. specialize (Hall kf0 Hin0). lra.
    + exists j, kf, n. simpl in Hname. repeat split; auto.
      assert (Hcmp : Qltb (MATCH_THRESHOLD a) (ncc face_roi kf) = true).
      { apply Qltb_true. specialize (Hall kf0 Hin0). lra. }
      rewrite Hcmp. reflexivity.
  - intros Hle.
    destruct Hres as [(-> & -> & Hall) | (j & kf & Hj & -> & Hname & Hlt & Hall & Hearly)].
    + destruct (Qltb (MATCH_THRESHOLD a) 0); reflexivity.
    + assert (Hcmp : Qltb (MATCH_THRESHOLD a) (ncc face_roi kf) = false).
      { apply Qltb_false. apply Hle. eapply nth_error_In; eassumption. }
      rewrite Hcmp. reflexivity.
Qed.

(** C3. For a face of at least [MIN_RECOGNITION_SIZE] in both dimensions and
    a non-empty gallery, the matcher returns the name of a gallery entry (the
    first one with the greatest score) exactly when the greatest score is
    strictly above the current [MATCH_THRESHOLD], and "Unknown" otherwise. In
    particular a crop scoring 0.80 against the only template, "Alice", is
    matched with the threshold at 0.65 and is "Unknown" with the threshold at
    0.85. *)
Theorem identity_matcher_threshold :
  (forall (a : App) (d : detection),
      MIN_RECOGNITION_SIZE <= det_w d ->
      MIN_RECOGNITION_SIZE <= det_h d ->
      known_faces a <> [] ->
      length (known_face_names a) = length (known_faces a) ->
      (0 <= MATCH_THRESHOLD a)%Q ->
      let face_roi := resize80 (det_roi d) in
      ((exists kf, In kf (known_faces a) /\
                   (MATCH_THRESHOLD a < ncc face_roi kf)%Q) ->
       exists i kf name,
         nth_error (known_faces a) i = Some kf /\
         nth_error (known_face_names a) i = Some name /\
         (forall kf', In kf' (known_faces a) ->
                      (ncc face_roi kf' <= ncc face_roi kf)%Q) /\
         (forall j kf', (j < i)%nat -> nth_error (known_faces a) j = Some kf' ->
                        (ncc face_roi kf' < ncc face_roi kf)%Q) /\
         recognise a d = Some name)
      /\
      ((forall kf, In kf (known_faces a) ->
                   (ncc face_roi kf <= MATCH_THRESHOLD a)%Q) ->
       recognise a d = Some Unknown))
  /\
  (forall (a : App) (d : detection) (T_A : img),
      MIN_RECOGNITION_SIZE <= det_w d ->
      MIN_RECOGNITION_SIZE <= det_h d ->
      known_faces a = [T_A] ->
      known_face_names a = ["Alice"%string] ->
      (ncc (resize80 (det_roi d)) T_A == 80 # 100)%Q ->
      recognise (update_match_threshold (65 # 100) a) d = Some "Alice"%string /\
      recognise (update_match_threshold (85 # 100) a) d = Some Unknown).
Proof.
  split.
  - intros a d Hw Hh Hne Hlen Hthr. apply recognise_threshold; assumption.
  - intros a d T_A Hw Hh Hfaces Hnames Hscore.
    assert (Hpos : Qltb 0 (ncc (resize80 (det_roi d)) T_A) = true)
      by (apply Qltb_true; lra).
    assert (Hlow : Qltb (65 # 100) (ncc (resize80 (det_roi d)) T_A) = true)
      by (apply Qltb_true; lra).
    assert (Hhigh : Qltb (85 # 100) (ncc (resize80 (det_roi d)) T_A) = false)
      by (apply Qltb_false; lra).
    split; rewrite recognise_large; simpl; try assumption;
      try (rewrite Hfaces; discriminate);
      rewrite Hfaces, Hnames; simpl; rewrite Hpos; simpl;
      [rewrite Hlow | rewrite Hhigh]; reflexivity.
Qed.

(** C4. A face whose box is below [MIN_RECOGNITION_SIZE] in width or in
    height is labelled "Unknown" whatever the gallery holds, and the label
    drawn by the loop body is "Unknown". *)
Theorem small_face_is_unknown (a : App) (d : detection) :
  det_w d < MIN_RECOGNITION_SIZE \/ det_h d < MIN_RECOGNITION_SIZE ->
  recognise a d = Some Unknown /\
  forall (now : Q) (a' : App) (out : list action),
    process_face now d a = Some (a', out) ->
    exists save_face rest,
      out = FaceSeen (center_x d) (center_y d) now save_face Unknown :: rest.
Proof.
  intros Hsmall.
  assert (Hrec : recognise a d = Some Unknown).
  { unfold recognise.
    destruct Hsmall as [H|H]; apply Z.leb_gt in H; rewrite H;
      [|rewrite andb_false_r]; reflexivity. }
  split; [exact Hrec|].
  intros now a' out. unfold process_face. rewrite Hrec.
  destruct (det_cv_error d); [discriminate|].
  destruct (save_face_of _ _ _ _ _); simpl; intros [= <- <-]; eauto.
Qed.

(** C9. With fewer than [BUFFER_SIZE] faces in the buffer,
    [process_unknown_faces] returns at once: the state (gallery, next person
    id, buffer and all the rest) is the one it was given, nothing is
    reported and nothing is raised. *)
Theorem process_unknown_faces_small_buffer (a : App) :
  (length (unknown_faces_buffer a) < BUFFER_SIZE)%nat ->
  process_unknown_faces a = (a, [], false).
Proof.
  intros Hlen. unfold process_unknown_faces.
  apply Nat.ltb_lt in Hlen. rewrite Hlen. reflexivity.
Qed.

(** ** Traces *)

Lemma accepted_app (l1 l2 : list action) :
  accepted (l1 ++ l2) = accepted l1 ++ accepted l2.
Proof. apply flat_map_app. Qed.

Lemma error_counts_app (l1 l2 : list action) :
  error_counts (l1 ++ l2) = error_counts l1 ++ error_counts l2.
Proof. apply flat_map_app. Qed.

Lemma reads_app (l1 l2 : list action) :
  reads (l1 ++ l2) = (reads l1 + reads l2)%nat.
Proof. unfold reads. rewrite filter_app, length_app. reflexivity. Qed.

Lemma accepted_cons (act : action) (l : list action) :
  accepted (act :: l) = accepted_of act ++ accepted l.
Proof. reflexivity. Qed.

Lemma error_counts_cons (act : action) (l : list action) :
  error_counts (act :: l) = error_count_of act ++ error_counts l.
Proof. reflexivity. Qed.

Lemma reads_cons (act : action) (l : list action) :
  reads (act :: l) = ((if is_read act then 1 else 0) + reads l)%nat.
Proof. unfold reads. simpl. destruct (is_read act); reflexivity. Qed.

(** A trace of status messages only. *)
Definition only_status (out : list action) : Prop :=
  Forall (fun act => exists msg, act = Status msg /\ msg <> error_status) out.

Lemma only_status_accepted (out : list action) :
  only_status out -> accepted out = [].
Proof.
  induction 1 as [|act out (msg & -> & _) _ IH]; simpl; [reflexivity|exact IH].
Qed.

(** ** What enrolment leaves alone *)

(** The fields neither [add_new_person] nor [process_unknown_faces] writes. *)
Definition same_session (a a' : App) : Prop :=
  running a' = running a /\
  cap a' = cap a /\
  camera_error_count a' = camera_error_count a /\
  saved_faces a' = saved_faces a /\
  SAVE_INTERVAL a' = SAVE_INTERVAL a /\
  MATCH_THRESHOLD a' = MATCH_THRESHOLD a /\
  last_process_time a' = last_process_time a /\
  frame_queue a' = frame_queue a.

Lemma same_session_refl (a : App) : same_session a a.
Proof. unfold same_session. intuition. Qed.

Lemma same_session_trans (a b c : App) :
  same_session a b -> same_session b c -> same_session a c.
Proof. unfold same_session. intuition congruence. Qed.

Lemma add_new_person_session (face_img : img) (a a' : App)
    (out : list action) :
  add_new_person face_img a = (a', out) ->
  same_session a a' /\ only_status out.
Proof.
  unfold add_new_person. intros [= <- <-]. split.
  - unfold same_session. simpl. intuition.
  - constructor; [|constructor].
    eexists. split; [reflexivity|]. unfold error_status. simpl. discriminate.
Qed.

Lemma only_status_app (l1 l2 : list action) :
  only_status l1 -> only_status l2 -> only_status (l1 ++ l2).
Proof. intros H1 H2. apply Forall_app. split; assumption. Qed.

Lemma enrol_groups_session (groups : list (list img)) :
  forall (a a' : App) (out : list action) (raised : bool),
    enrol_groups groups a = (a', out, raised) ->
    same_session a a' /\ only_status out.
Proof.
  induction groups as [|group rest IH]; intros a a' out raised;
    cbn [enrol_groups].
  - intros [= <- <- <-]. split; [apply same_session_refl | constructor].
  - destruct (2 <=? length group)%nat; [|apply IH].
    destruct (best_face_of group) as [best_face|].
    + destruct (add_new_person (gray2bgr best_face) a) as [a1 out1] eqn:Hadd.
      destruct (enrol_groups rest a1) as [[a2 out2] r2] eqn:Hrest.
      intros [= <- <- <-].
      apply add_new_person_session in Hadd. destruct Hadd as [Hs1 Ho1].
      apply IH in Hrest. destruct Hrest as [Hs Ho].
      split.
      * eapply same_session_trans; eassumption.
      * apply only_status_app; assumption.
    + intros [= <- <- <-]. split; [apply same_session_refl | constructor].
Qed.

Lemma process_unknown_faces_session (a a' : App) (out : list action)
    (raised : bool) :
  process_unknown_faces a = (a', out, raised) ->
  same_session a a' /\ only_status out.
Proof.
  unfold process_unknown_faces.
  destruct (length (unknown_faces_buffer a) <? BUFFER_SIZE)%nat.
  - intros [= <- <- <-]. split; [apply same_session_refl | constructor].
  - destruct (enrol_groups _ a) as [[a1 out1] r1] eqn:Henrol.
    apply enrol_groups_session in Henrol. destruct Henrol as [Hs Ho].
    destruct r1; intros [= <- <- <-]; split; try exact Ho; exact Hs.
Qed.

(** ** Traces of the face loop *)

(** No camera call, no error counted, no exception reported. *)
Definition face_trace (out : list action) : Prop :=
  Forall
    (fun act =>
       match act with
       | FaceSeen _ _ _ _ _ | LogAttendance _ => True
       | Status msg => msg <> error_status
       | _ => False
       end)
    out.

Lemma face_trace_app (l1 l2 : list action) :
  face_trace l1 -> face_trace l2 -> face_trace (l1 ++ l2).
Proof. intros H1 H2. apply Forall_app. split; assumption. Qed.

Lemma only_status_face_trace (out : list action) :
  only_status out -> face_trace out.
Proof.
  unfold only_status, face_trace. apply Forall_impl.
  intros act (msg & -> & Hmsg). exact Hmsg.
Qed.

Lemma face_trace_error_counts (out : list action) :
  face_trace out -> error_counts out = [].
Proof.
  induction 1 as [|act out Hact _ IH]; simpl; [reflexivity|].
  destruct act; simpl; try contradiction; exact IH.
Qed.

Lemma face_trace_reads (out : list action) :
  face_trace out -> reads out = 0%nat.
Proof.
  induction 1 as [|act out Hact _ IH]; simpl; [reflexivity|].
  destruct act; simpl; try contradiction; exact IH.
Qed.

(** The fields the face loop and the enrolment leave alone. *)
Definition same_camera (a a' : App) : Prop :=
  running a' = running a /\
  cap a' = cap a /\
  camera_error_count a' = camera_error_count a /\
  SAVE_INTERVAL a' = SAVE_INTERVAL a /\
  frame_queue a' = frame_queue a.

Lemma same_camera_refl (a : App) : same_camera a a.
Proof. unfold same_camera. intuition. Qed.

Lemma same_camera_trans (a b c : App) :
  same_camera a b -> same_camera b c -> same_camera a c.
Proof. unfold same_camera. intuition congruence. Qed.

Lemma same_session_camera (a a' : App) :
  same_session a a' -> same_camera a a'.
Proof. unfold same_session, same_camera. intuition. Qed.

(** ** The duplicate gate *)

Lemma closer_than_sym (thr x1 y1 x2 y2 : Z) :
  closer_than thr x1 y1 x2 y2 = closer_than thr x2 y2 x1 y1.
Proof. unfold closer_than. f_equal. ring. Qed.

Lemma save_face_of_true (si : Q) (saved : list sighting) (cx cy : Z) (now : Q) :
  save_face_of si saved cx cy now = true <->
  forall s, In s saved ->
            ~ (closer_than DISTANCE_THRESHOLD cx cy (sx s) (sy s) = true /\
               (now - st s < si)%Q).
Proof.
  unfold save_face_of. rewrite negb_true_iff, <- not_true_iff_false, existsb_exists.
  unfold blocks. split.
  - intros Hno s Hin [Hclose Hyoung]. apply Hno. exists s. split; [exact Hin|].
    apply andb_true_iff. split; [exact Hclose | apply Qltb_true; exact Hyoung].
  - intros Hall (s & Hin & Hb). apply andb_true_iff in Hb.
    destruct Hb as [Hclose Hyoung]. apply Qltb_true in Hyoung.
    apply (Hall s Hin). split; assumption.
Qed.

(** The effect of the loop body on one face. *)
Lemma process_face_effect (now : Q) (d : detection) (a a' : App)
    (out : list action) :
  process_face now d a = Some (a', out) ->
  let c := (center_x d, center_y d, now) in
  let save_face :=
    save_face_of (SAVE_INTERVAL a) (saved_faces a) (center_x d) (center_y d) now in
  same_camera a a' /\ face_trace out /\
  (exists name rest,
      out = FaceSeen (center_x d) (center_y d) now save_face name :: rest) /\
  saved_faces a' = (if save_face then saved_faces a ++ [c] else saved_faces a) /\
  accepted out = (if save_face then [c] else []).
Proof.
  unfold process_face. destruct (det_cv_error d); [discriminate|].
  destruct (recognise a d) as [name|]; [|discriminate].
  destruct (save_face_of _ _ _ _ _); simpl.
  - destruct (String.eqb name Unknown); intros [= <- <-]; simpl;
      repeat split; eauto; repeat constructor.
  - intros [= <- <-]. simpl. repeat split; eauto. repeat constructor.
Qed.

Lemma ForallOrdPairs_snoc {A : Type} (R : A -> A -> Prop) (l : list A) (x : A) :
  ForallOrdPairs R l -> Forall (fun y => R y x) l ->
  ForallOrdPairs R (l ++ [x]).
Proof.
  induction 1 as [|y l Hy Hl IH]; intros Hx; simpl.
  - repeat constructor.
  - inversion Hx as [|? ? Hyx Hlx]; subst. constructor.
    + apply Forall_app. split; [exact Hy | repeat constructor; exact Hyx].
    + apply IH. exact Hlx.
Qed.

(** The invariant of the gate, for a save interval [si], the time [T] of the
    last frame, the list [saved] and all the sightings [log] accepted so far:
    what is saved was accepted; nothing accepted is from the future; an
    accepted sighting that is no longer saved is at least [si] old; and no two
    accepted sightings are in conflict. *)
Record dedup_inv (si T : Q) (saved log : list sighting) : Prop := mkDedupInv {
  inv_saved : forall s, In s saved -> In s log;
  inv_past : forall s, In s log -> (st s <= T)%Q;
  inv_pruned : forall s, In s log -> In s saved \/ (si <= T - st s)%Q;
  inv_pairs : ForallOrdPairs (fun s1 s2 => ~ conflict si s1 s2) log
}.

Lemma dedup_inv_nil (si T : Q) : dedup_inv si T [] [].
Proof. constructor; try (intros s []). constructor. Qed.

Lemma dedup_inv_later (si T T' : Q) (saved log : list sighting) :
  (T <= T')%Q -> dedup_inv si T saved log -> dedup_inv si T' saved log.
Proof.
  intros HT [Hsaved Hpast Hpruned Hpairs]. constructor; auto.
  - intros s Hin. specialize (Hpast s Hin). lra.
  - intros s Hin. destruct (Hpruned s Hin) as [H|H]; [left; exact H|right; lra].
Qed.

Lemma dedup_inv_accept (si T now : Q) (saved log : list sighting) (cx cy : Z) :
  dedup_inv si T saved log -> (T <= now)%Q ->
  save_face_of si saved cx cy now = true ->
  dedup_inv si now (saved ++ [(cx, cy, now)]) (log ++ [(cx, cy, now)]).
Proof.
  intros [Hsaved Hpast Hpruned Hpairs] HT Hgate.
  rewrite save_face_of_true in Hgate. constructor.
  - intros s Hin. apply in_app_iff in Hin. apply in_app_iff.
    destruct Hin as [Hin|Hin]; [left; auto | right; exact Hin].
  - intros s Hin. apply in_app_iff in Hin. destruct Hin as [Hin|[<-|[]]].
    + specialize (Hpast s Hin). lra.
    + simpl. lra.
  - intros s Hin. apply in_app_iff in Hin. destruct Hin as [Hin|[<-|[]]].
    + destruct (Hpruned s Hin) as [H|H].
      * left. apply in_app_iff. left. exact H.
      * right. lra.
    + left. apply in_app_iff. right. left. reflexivity.
  - apply ForallOrdPairs_snoc; [exact Hpairs|].
    apply Forall_forall. intros s Hin (Hclose & Hlt1 & Hlt2).
    unfold sx, sy, st in Hclose, Hlt1, Hlt2. simpl in Hclose, Hlt1, Hlt2.
    destruct (Hpruned s Hin) as [H|H].
    + apply (Hgate s H). split; [|exact Hlt2].
      rewrite closer_than_sym. exact Hclose.
    + fold (st s) in Hlt2. lra.
Qed.

Lemma dedup_inv_clean (si now : Q) (saved log : list sighting) :
  dedup_inv si now saved log ->
  dedup_inv si now (clean_saved_faces si now saved) log.
Proof.
  intros [Hsaved Hpast Hpruned Hpairs]. unfold clean_saved_faces.
  constructor; auto.
  - intros s Hin. apply filter_In in Hin. apply Hsaved. tauto.
  - intros s Hin. destruct (Hpruned s Hin) as [H|H]; [|right; exact H].
    destruct (Qltb (now - st s) si) eqn:Hyoung.
    + left. apply filter_In. split; assumption.
    + right. apply Qltb_false in Hyoung. exact Hyoung.
Qed.

Lemma process_face_dedup (now : Q) (d : detection) (a a' : App)
    (out : list action) (T : Q) (log : list sighting) :
  process_face now d a = Some (a', out) ->
  dedup_inv (SAVE_INTERVAL a) T (saved_faces a) log -> (T <= now)%Q ->
  dedup_inv (SAVE_INTERVAL a) now (saved_faces a') (log ++ accepted out).
Proof.
  intros Hface Hinv HT.
  destruct (process_face_effect _ _ _ _ _ Hface) as (_ & _ & _ & Hsaved & Hacc).
  rewrite Hsaved, Hacc.
  destruct (save_face_of _ _ _ _ _) eqn:Hgate.
  - eapply dedup_inv_accept; eassumption.
  - rewrite app_nil_r. eapply dedup_inv_later; eassumption.
Qed.

Lemma process_faces_effect (now : Q) (ds : list detection) :
  forall (a a' : App) (out : list action) (raised : bool),
    process_faces now ds a = (a', out, raised) ->
    same_camera a a' /\ face_trace out /\
    forall (T : Q) (log : list sighting),
      dedup_inv (SAVE_INTERVAL a) T (saved_faces a) log -> (T <= now)%Q ->
      dedup_inv (SAVE_INTERVAL a) now (saved_faces a') (log ++ accepted out).
Proof.
  induction ds as [|d rest IH]; intros a a' out raised; cbn [process_faces].
  - intros [= <- <- <-]. split; [apply same_camera_refl|].
    split; [constructor|]. intros T log Hinv HT. simpl. rewrite app_nil_r.
    eapply dedup_inv_later; eassumption.
  - destruct (process_face now d a) as [[a1 out1]|] eqn:Hface.
    + destruct (process_faces now rest a1) as [[a2 out2] r2] eqn:Hrest.
      intros [= <- <- <-].
      destruct (process_face_effect _ _ _ _ _ Hface) as (Hcam1 & Htr1 & _).
      destruct (IH _ _ _ _ Hrest) as (Hcam2 & Htr2 & Hded2).
      split; [eapply same_camera_trans; eassumption|].
      split; [apply face_trace_app; assumption|].
      intros T log Hinv HT. rewrite accepted_app, app_assoc.
      assert (Hsi : SAVE_INTERVAL a1 = SAVE_INTERVAL a) by apply Hcam1.
      rewrite <- Hsi. apply (Hded2 now).
      * rewrite Hsi. eapply process_face_dedup; eassumption.
      * apply Qle_refl.
    + intros [= <- <- <-]. split; [apply same_camera_refl|].
      split; [constructor|]. intros T log Hinv HT. simpl. rewrite app_nil_r.
      eapply dedup_inv_later; eassumption.
Qed.

(** ** One frame *)

Lemma process_frame_effect (f : frame_in) (a a' : App) (out : list action)
    (raised : bool) :
  process_frame f a = (a', out, raised) ->
  running a' = running a /\ cap a' = cap a /\ camera_error_count a' = 0 /\
  SAVE_INTERVAL a' = SAVE_INTERVAL a /\ face_trace out /\
  frame_queue a' =
    (if raised then frame_queue a
     else enqueue_frame (frame_queue a) (frame_rgb f)) /\
  forall (T : Q) (log : list sighting),
    dedup_inv (SAVE_INTERVAL a) T (saved_faces a) log ->
    (T <= current_time f)%Q ->
    dedup_inv (SAVE_INTERVAL a) (current_time f) (saved_faces a')
      (log ++ accepted out).
Proof.
  unfold process_frame.
  set (a0 := set_camera_error_count 0 a).
  destruct (frame_cv_error f).
  { intros [= <- <- <-]. splits; auto; [constructor|].
    intros T log Hinv HT. simpl. rewrite app_nil_r.
    eapply dedup_inv_later; eassumption. }
  assert (Hstart :
    forall a1 out1 r1,
      (if Qltb PROCESS_INTERVAL (current_time f - last_process_time a0)
       then let '(a_, out_, raised_) := process_unknown_faces a0 in
            if raised_ then (a_, out_, true)
            else (set_last_process_time (current_time f) a_, out_, false)
       else (a0, [], false)) = (a1, out1, r1) ->
      same_camera a0 a1 /\ saved_faces a1 = saved_faces a0 /\ only_status out1).
  { intros a1 out1 r1.
    destruct (Qltb PROCESS_INTERVAL _).
    - destruct (process_unknown_faces a0) as [[a_ out_] r_] eqn:Hpuf.
      apply process_unknown_faces_session in Hpuf. destruct Hpuf as [Hs Ho].
      destruct r_; intros [= <- <- <-]; (split; [|split; [|exact Ho]]);
        try (apply same_session_camera; exact Hs);
        unfold same_session, same_camera in *; simpl; intuition.
    - intros [= <- <- <-]. split; [apply same_camera_refl|].
      split; [reflexivity | constructor]. }
  destruct (if Qltb PROCESS_INTERVAL _ then _ else _) as [[a1 out1] r1] eqn:Hpre.
  destruct (Hstart _ _ _ eq_refl) as (Hcam1 & Hsaved1 & Ho1).
  assert (Hacc1 : accepted out1 = []) by (apply only_status_accepted; exact Ho1).
  assert (Hft1 : face_trace out1) by (apply only_status_face_trace; exact Ho1).
  clear Hstart Hpre.
  destruct Hcam1 as (Hr1 & Hc1 & Hn1 & Hsi1 & Hq1). simpl in Hr1, Hc1, Hn1, Hsi1, Hq1.
  simpl in Hsaved1.
  destruct r1.
  - intros [= <- <- <-]. splits; auto.
    intros T log Hinv HT. rewrite Hacc1, app_nil_r, Hsaved1.
    eapply dedup_inv_later; eassumption.
  - destruct (process_faces (current_time f) (faces f) a1)
      as [[a2 out2] r2] eqn:Hfaces.
    destruct (process_faces_effect _ _ _ _ _ _ Hfaces)
      as ((Hr2 & Hc2 & Hn2 & Hsi2 & Hq2) & Hft2 & Hded2).
    assert (Hinv2 :
      forall T log,
        dedup_inv (SAVE_INTERVAL a) T (saved_faces a) log ->
        (T <= current_time f)%Q ->
        dedup_inv (SAVE_INTERVAL a) (current_time f) (saved_faces a2)
          (log ++ accepted (out1 ++ out2))).
    { intros T log Hinv HT. rewrite accepted_app, Hacc1. simpl.
      rewrite <- Hsi1. apply (Hded2 T); [|exact HT].
      rewrite Hsi1, Hsaved1. exact Hinv. }
    destruct r2; intros [= <- <- <-]; simpl.
    + splits; try congruence.
      * apply face_trace_app; assumption.
      * exact Hinv2.
    + splits; try congruence.
      * apply face_trace_app; assumption.
      * intros T log Hinv HT. rewrite Hsi2, Hsi1.
        apply dedup_inv_clean. apply (Hinv2 T); assumption.
Qed.

(** ** The loop and the gate *)

Ltac trace_simpl :=
  repeat (rewrite accepted_app || rewrite accepted_cons
          || rewrite error_counts_app || rewrite error_counts_cons
          || rewrite reads_app || rewrite reads_cons);
  cbn [accepted_of error_count_of is_read accepted error_counts reads
       flat_map filter length app].

Lemma stop_detection_effect (a a' : App) (out : list action) :
  stop_detection a = (a', out) ->
  running a' = false /\ cap a' = None /\
  camera_error_count a' = camera_error_count a /\
  saved_faces a' = saved_faces a /\ SAVE_INTERVAL a' = SAVE_INTERVAL a /\
  frame_queue a' = frame_queue a /\
  accepted out = [] /\ error_counts out = [] /\ reads out = 0%nat /\
  ~ In (Status error_status) out.
Proof.
  unfold stop_detection. simpl.
  destruct (cap a) eqn:Hcap; intros [= <- <-]; simpl; splits; auto.
  intros [H|[]]. discriminate.
Qed.

Lemma count_error_effect (msg : string) (a a' : App) (out : list action)
    (stopped : bool) :
  msg <> error_status ->
  count_error msg a = (a', out, stopped) ->
  stopped = (max_camera_errors <? camera_error_count a + 1) /\
  camera_error_count a' = camera_error_count a + 1 /\
  running a' = (if stopped then false else running a) /\
  cap a' = (if stopped then None else cap a) /\
  saved_faces a' = saved_faces a /\ SAVE_INTERVAL a' = SAVE_INTERVAL a /\
  frame_queue a' = frame_queue a /\
  accepted out = [] /\ error_counts out = [camera_error_count a + 1] /\
  reads out = 0%nat /\ ~ In (Status error_status) out.
Proof.
  intros Hmsg. unfold count_error. simpl.
  destruct (max_camera_errors <? camera_error_count a + 1).
  - destruct (stop_detection _) as [a2 out2] eqn:Hstop.
    apply stop_detection_effect in Hstop. simpl in Hstop.
    destruct Hstop as (Hr & Hc & Hn & Hs & Hsi & Hq & Hacc & Herr & Hrd & Hno).
    intros [= <- <- <-]. trace_simpl. rewrite Hacc, Herr, Hrd.
    splits; auto.
    intros [H|[H|H]]; try discriminate; [|auto].
    injection H as H. auto.
  - intros [= <- <- <-]. simpl. splits; auto.
    intros [H|H]; try discriminate; auto.
Qed.

Lemma read_and_process_dedup (ev : event) (a a' : App) (out : list action) :
  read_and_process ev a = (a', out) ->
  SAVE_INTERVAL a' = SAVE_INTERVAL a /\
  forall (T : Q) (log : list sighting),
    dedup_inv (SAVE_INTERVAL a) T (saved_faces a) log ->
    (forall f, ev_read ev = Some f -> (T <= current_time f)%Q) ->
    dedup_inv (SAVE_INTERVAL a)
      (match ev_read ev with Some f => current_time f | None => T end)
      (saved_faces a') (log ++ accepted out).
Proof.
  unfold read_and_process. destruct (ev_read ev) as [f|].
  - destruct (process_frame f a) as [[a1 out1] raised] eqn:Hframe.
    destruct (process_frame_effect _ _ _ _ _ Hframe)
      as (_ & _ & _ & Hsi & _ & _ & Hded).
    destruct raised.
    + destruct (count_error _ a1) as [[a2 out2] stopped] eqn:Hcount.
      apply count_error_effect in Hcount; [|discriminate].
      destruct Hcount as (_ & _ & _ & _ & Hs & Hsi2 & _ & Hacc & _).
      intros [= <- <-]. split; [congruence|].
      intros T log Hinv HT. trace_simpl. rewrite Hacc, app_nil_r, Hs.
      apply (Hded T); auto.
    + intros [= <- <-]. split; [exact Hsi|].
      intros T log Hinv HT. trace_simpl. apply (Hded T); auto.
  - destruct (count_error _ a) as [[a1 out1] stopped] eqn:Hcount.
    apply count_error_effect in Hcount; [|discriminate].
    destruct Hcount as (_ & _ & _ & _ & Hs & Hsi & _ & Hacc & _).
    destruct stopped; intros [= <- <-]; trace_simpl; rewrite Hacc;
      (split; [destruct (ev_reopen ev); simpl; exact Hsi|]);
      intros T log Hinv HT; rewrite app_nil_r.
    + rewrite Hs. exact Hinv.
    + destruct (ev_reopen ev); simpl; rewrite Hs; exact Hinv.
Qed.

Lemma iteration_dedup (ev : event) (a a' : App) (out : list action) :
  iteration ev a = (a', out) ->
  SAVE_INTERVAL a' = SAVE_INTERVAL a /\
  forall (T : Q) (log : list sighting),
    dedup_inv (SAVE_INTERVAL a) T (saved_faces a) log ->
    (forall f, ev_read ev = Some f -> (T <= current_time f)%Q) ->
    dedup_inv (SAVE_INTERVAL a)
      (match ev_read ev with Some f => current_time f | None => T end)
      (saved_faces a') (log ++ accepted out).
Proof.
  unfold iteration. destruct (negb (isOpened (cap a))).
  - destruct (negb (ev_open ev)).
    + destruct (count_error _ _) as [[a2 out2] stopped] eqn:Hcount.
      apply count_error_effect in Hcount; [|discriminate].
      destruct Hcount as (_ & _ & _ & _ & Hs & Hsi & _ & Hacc & _).
      simpl in Hs, Hsi.
      intros [= <- <-]. split; [exact Hsi|].
      intros T log Hinv HT. trace_simpl. rewrite Hacc, app_nil_r, Hs.
      destruct (ev_read ev) as [f|]; [|exact Hinv].
      eapply dedup_inv_later; [|exact Hinv]. auto.
    + destruct (read_and_process ev _) as [a2 out2] eqn:Hread.
      apply read_and_process_dedup in Hread. simpl in Hread.
      destruct Hread as [Hsi Hded].
      intros [= <- <-]. split; [exact Hsi|].
      intros T log Hinv HT. trace_simpl. apply Hded; assumption.
  - apply read_and_process_dedup.
Qed.

Lemma detection_loop_dedup (evs : list event) :
  forall (a a' : App) (out : list action) (T : Q) (log : list sighting),
    detection_loop evs a = (a', out) ->
    dedup_inv (SAVE_INTERVAL a) T (saved_faces a) log ->
    StronglySorted Qle (T :: frame_times evs) ->
    SAVE_INTERVAL a' = SAVE_INTERVAL a /\
    exists T',
      dedup_inv (SAVE_INTERVAL a) T' (saved_faces a') (log ++ accepted out).
Proof.
  induction evs as [|ev rest IH]; intros a a' out T log; cbn [detection_loop].
  - intros [= <- <-] Hinv _. split; [reflexivity|]. exists T.
    simpl. rewrite app_nil_r. exact Hinv.
  - destruct (running a).
    2:{ intros [= <- <-] Hinv _. split; [reflexivity|]. exists T.
        simpl. rewrite app_nil_r. exact Hinv. }
    destruct (iteration ev a) as [a1 out1] eqn:Hiter.
    destruct (detection_loop rest a1) as [a2 out2] eqn:Hloop.
    intros [= <- <-] Hinv Htimes.
    destruct (iteration_dedup _ _ _ _ Hiter) as [Hsi Hded].
    specialize (Hded T log Hinv).
    unfold frame_times in Htimes. simpl in Htimes. fold (frame_times rest) in Htimes.
    apply StronglySorted_inv in Htimes. destruct Htimes as [Hsorted Hall].
    assert (Hstep :
      dedup_inv (SAVE_INTERVAL a)
        (match ev_read ev with Some f => current_time f | None => T end)
        (saved_faces a1) (log ++ accepted out1) /\
      StronglySorted Qle
        ((match ev_read ev with Some f => current_time f | None => T end)
           :: frame_times rest)).
    { destruct (ev_read ev) as [f|]; simpl in *.
      - inversion Hall as [|? ? Hle Hrest]; subst. split.
        + apply Hded. intros f' [= <-]. exact Hle.
        + exact Hsorted.
      - split; [apply Hded; discriminate|].
        constructor; assumption. }
    destruct Hstep as [Hinv1 Htimes1]. rewrite <- Hsi in Hinv1.
    destruct (IH _ _ _ _ _ Hloop Hinv1 Htimes1) as [Hsi2 [T' Hinv2]].
    split; [congruence|]. exists T'.
    rewrite accepted_app, app_assoc. rewrite <- Hsi. exact Hinv2.
Qed.

Lemma sorted_times_lower_bound (ts : list Q) :
  StronglySorted Qle ts -> exists T, StronglySorted Qle (T :: ts).
Proof.
  intros Hs. destruct ts as [|t rest].
  - exists 0%Q. repeat constructor.
  - exists t. constructor; [exact Hs|].
    apply StronglySorted_inv in Hs. destruct Hs as [_ Hall].
    constructor; [apply Qle_refl | exact Hall].
Qed.

(** C1. The gate accepts a detection exactly when no saved face is both
    closer than [DISTANCE_THRESHOLD] and younger than [SAVE_INTERVAL], and an
    accepted detection is appended to [saved_faces] (a suppressed one is
    not). Consequently, over any run of the loop that starts with no saved
    face and whose frames carry non-decreasing timestamps, no two accepted
    sightings are closer than [DISTANCE_THRESHOLD] with timestamps less than
    [SAVE_INTERVAL] apart. *)
Theorem dedup_gate_invariant :
  (forall (now : Q) (d : detection) (a a' : App) (out : list action),
      process_face now d a = Some (a', out) ->
      let cx := center_x d in
      let cy := center_y d in
      let save_face :=
        save_face_of (SAVE_INTERVAL a) (saved_faces a) cx cy now in
      (exists name rest, out = FaceSeen cx cy now save_face name :: rest) /\
      (save_face = true <->
       forall s, In s (saved_faces a) ->
                 ~ (closer_than DISTANCE_THRESHOLD cx cy (sx s) (sy s) = true /\
                    (now - st s < SAVE_INTERVAL a)%Q)) /\
      saved_faces a' =
        (if save_face then saved_faces a ++ [(cx, cy, now)] else saved_faces a))
  /\
  (forall (evs : list event) (a a' : App) (out : list action),
      saved_faces a = [] ->
      StronglySorted Qle (frame_times evs) ->
      detection_loop evs a = (a', out) ->
      ForallOrdPairs (fun s1 s2 => ~ conflict (SAVE_INTERVAL a) s1 s2)
        (accepted out)).
Proof.
  split.
  - intros now d a a' out Hface cx cy save_face.
    destruct (process_face_effect _ _ _ _ _ Hface) as (_ & _ & Hout & Hsaved & _).
    split; [exact Hout|]. split; [apply save_face_of_true | exact Hsaved].
  - intros evs a a' out Hempty Htimes Hloop.
    destruct (sorted_times_lower_bound _ Htimes) as [T HT].
    destruct (detection_loop_dedup evs a a' out T [] Hloop) as [_ [T' Hinv]].
    + rewrite Hempty. apply dedup_inv_nil.
    + exact HT.
    + simpl in Hinv. exact (inv_pairs _ _ _ _ Hinv).
Qed.

(** ** The display queue *)

(** C6, as the code has it. Handing a frame to the display queue never waits
    ([process_frame] is a total function), and a frame that finds the queue
    full (5 frames) is discarded while the queued frames stay as they are;
    with room left the frame goes to the tail. The queue never exceeds 5
    frames. *)
Theorem full_queue_drops_new_frame (f : frame_in) (a a' : App)
    (out : list action) :
  process_frame f a = (a', out, false) ->
  ((length (frame_queue a) < frame_queue_maxlen)%nat ->
   frame_queue a' = frame_queue a ++ [frame_rgb f]) /\
  ((frame_queue_maxlen <= length (frame_queue a))%nat ->
   frame_queue a' = frame_queue a) /\
  ((length (frame_queue a) <= frame_queue_maxlen)%nat ->
   (length (frame_queue a') <= frame_queue_maxlen)%nat).
Proof.
  intros Hframe.
  destruct (process_frame_effect _ _ _ _ _ Hframe) as (_ & _ & _ & _ & _ & Hq & _).
  rewrite Hq. unfold enqueue_frame.
  destruct (length (frame_queue a) <? frame_queue_maxlen)%nat eqn:Hroom.
  - apply Nat.ltb_lt in Hroom. splits; intros H; try reflexivity; try lia.
    rewrite length_app. simpl. lia.
  - apply Nat.ltb_ge in Hroom. splits; intros H; try reflexivity; lia.
Qed.

Lemma poll_times_fifo (n : nat) :
  forall (a : App),
    n = length (frame_queue a) ->
    snd (poll_times n a) = map Some (frame_queue a) /\
    frame_queue (fst (poll_times n a)) = [].
Proof.
  induction n as [|k IH]; intros a Hn.
  - destruct (frame_queue a) eqn:Hq; [|discriminate]. simpl. auto.
  - destruct (frame_queue a) as [|f rest] eqn:Hq; [discriminate|].
    cbn [poll_times]. unfold update_gui. rewrite Hq. cbn [poll_frame].
    specialize (IH (set_frame_queue rest a)). simpl in IH, Hn.
    destruct (poll_times k (set_frame_queue rest a)) as [a2 more].
    simpl in *. destruct IH as [IH1 IH2]; [lia|]. rewrite IH1. auto.
Qed.

(** C7, as the code has it. A poll with a non-empty queue shows the frame at
    the head of the queue, the one queued first, and leaves the others queued
    in order; as many polls as there are queued frames show every one of
    them, in the order they were produced, and empty the queue. *)
Theorem update_gui_shows_oldest :
  (forall (a : App) (f : img) (rest : list img),
      frame_queue a = f :: rest ->
      update_gui a = (set_frame_queue rest a, Some f)) /\
  (forall (a : App),
      snd (poll_times (length (frame_queue a)) a) = map Some (frame_queue a) /\
      frame_queue (fst (poll_times (length (frame_queue a)) a)) = []).
Proof.
  split.
  - intros a f rest Hq. unfold update_gui. rewrite Hq. reflexivity.
  - intros a. apply poll_times_fifo. reflexivity.
Qed.

(** ** The error budget *)

Lemma caught_app (l1 l2 : list action) :
  caught (l1 ++ l2) = (caught l1 + caught l2)%nat.
Proof. unfold caught. rewrite filter_app, length_app. reflexivity. Qed.

Lemma caught_cons (act : action) (l : list action) :
  caught (act :: l) = ((if is_caught act then 1 else 0) + caught l)%nat.
Proof. unfold caught. simpl. destruct (is_caught act); reflexivity. Qed.

Lemma face_trace_caught (out : list action) :
  face_trace out -> caught out = 0%nat.
Proof.
  induction 1 as [|act out Hact _ IH]; [reflexivity|].
  rewrite caught_cons, IH.
  destruct act; simpl; try reflexivity; try contradiction.
  apply String.eqb_neq in Hact. rewrite Hact. reflexivity.
Qed.

(** The iteration of a failed read that is followed by a successful
    re-open. *)
Lemma read_and_process_reopens (ev : event) (a a' : App) (out : list action) :
  ev_read ev = None -> ev_reopen ev = true ->
  camera_error_count a < max_camera_errors ->
  read_and_process ev a = (a', out) ->
  a' = set_camera_error_count 0
         (set_cap (Some true)
            (set_camera_error_count (camera_error_count a + 1) a)) /\
  out = [CamRead false; ErrorCount (camera_error_count a + 1); CamRelease;
         CamOpen true].
Proof.
  intros Hread Hreopen Hbudget. unfold read_and_process, count_error.
  rewrite Hread, Hreopen. simpl.
  assert (Hok : (max_camera_errors <? camera_error_count a + 1) = false)
    by (apply Z.ltb_ge; lia).
  rewrite Hok. intros [= <- <-]. split; reflexivity.
Qed.

Lemma iteration_reopens (ev : event) (a a' : App) (out : list action) :
  reaches_reopen ev a -> ev_reopen ev = true ->
  iteration ev a = (a', out) ->
  camera_error_count a' = 0 /\ cap a' = Some true /\ running a' = running a /\
  reads out = 1%nat /\
  after_failed_read out =
    Some [ErrorCount (if isOpened (cap a) then camera_error_count a + 1 else 1);
          CamRelease; CamOpen true].
Proof.
  intros [Hread Hreach] Hreopen. unfold iteration.
  destruct (isOpened (cap a)); cbn [negb].
  - intros Hrun.
    destruct (read_and_process_reopens _ _ _ _ Hread Hreopen Hreach Hrun)
      as [-> ->].
    simpl. splits; reflexivity.
  - rewrite Hreach. cbn [negb].
    destruct (read_and_process ev _) as [a2 out2] eqn:Hrun.
    intros [= <- <-].
    apply read_and_process_reopens in Hrun; auto;
      [|unfold max_camera_errors; simpl; lia].
    destruct Hrun as [-> ->]. simpl. splits; reflexivity.
Qed.

(** A session that re-opens its camera after every failed read: running, the
    capture opened, at most one error counted (by the handler of line
    1024). *)
Definition alive (a : App) : Prop :=
  running a = true /\ cap a = Some true /\
  0 <= camera_error_count a <= 1.

Lemma iteration_alive (ev : event) (a a' : App) (out : list action) :
  alive a ->
  (ev_read ev = None -> ev_reopen ev = true) ->
  iteration ev a = (a', out) ->
  alive a' /\ reads out = 1%nat /\
  Forall (fun n => 1 <= n <= 2) (error_counts out) /\
  length (error_counts out)
  = ((if read_fails ev then 1 else 0) + caught out)%nat /\
  (camera_error_count a = 0 -> caught out = 0%nat ->
   error_counts out = (if read_fails ev then [1] else []) /\
   camera_error_count a' = 0).
Proof.
  intros (Hrun & Hcap & Hcount) Hreopen.
  unfold iteration. rewrite Hcap. cbn [isOpened negb].
  unfold read_fails. destruct (ev_read ev) as [f|] eqn:Hread.
  - unfold read_and_process. rewrite Hread.
    destruct (process_frame f a) as [[a1 out1] raised] eqn:Hframe.
    destruct (process_frame_effect _ _ _ _ _ Hframe)
      as (Hr & Hc & Hn & _ & Hft & _).
    pose proof (face_trace_error_counts _ Hft) as Herr.
    pose proof (face_trace_reads _ Hft) as Hrd.
    pose proof (face_trace_caught _ Hft) as Hcaught.
    destruct raised.
    + unfold count_error. simpl. rewrite Hn. simpl.
      intros [= <- <-]. trace_simpl.
      rewrite caught_cons, caught_app, caught_cons, Herr, Hrd, Hcaught.
      unfold alive. simpl.
      splits; try congruence; try lia; try reflexivity;
        try (repeat constructor; lia).
    + intros [= <- <-]. trace_simpl. rewrite caught_cons, Herr, Hrd, Hcaught.
      unfold alive. simpl.
      splits; try congruence; try lia; try reflexivity;
        try (repeat constructor; lia);
        try (intros _ _; split; [reflexivity | exact Hn]).
  - intros Hrun'.
    apply read_and_process_reopens in Hrun'; auto;
      [|unfold max_camera_errors; lia].
    destruct Hrun' as [-> ->].
    unfold alive. simpl.
    splits; auto; try lia; try reflexivity;
      try (repeat constructor; lia);
      try (intros H0 _; rewrite H0; split; reflexivity).
Qed.

Lemma detection_loop_alive (evs : list event) :
  forall (a a' : App) (out : list action),
    alive a ->
    Forall (fun ev => ev_read ev = None -> ev_reopen ev = true) evs ->
    detection_loop evs a = (a', out) ->
    alive a' /\ reads out = length evs /\
    Forall (fun n => 1 <= n <= 2) (error_counts out) /\
    length (error_counts out) = (failed_reads evs + caught out)%nat /\
    (camera_error_count a = 0 -> caught out = 0%nat ->
     error_counts out = repeat 1 (failed_reads evs) /\
     camera_error_count a' = 0).
Proof.
  induction evs as [|ev rest IH]; intros a a' out Hal Hevs; cbn [detection_loop].
  - intros [= <- <-]. splits; auto.
  - assert (Hrun : running a = true) by apply Hal. rewrite Hrun.
    destruct (iteration ev a) as [a1 out1] eqn:Hiter.
    destruct (detection_loop rest a1) as [a2 out2] eqn:Hloop.
    intros [= <- <-].
    inversion Hevs as [|? ? Hev Hrest]; subst.
    destruct (iteration_alive _ _ _ _ Hal Hev Hiter)
      as (Hal1 & Hrd1 & Herr1 & Hlen1 & Hclean1).
    destruct (IH _ _ _ Hal1 Hrest Hloop)
      as (Hal2 & Hrd2 & Herr2 & Hlen2 & Hclean2).
    assert (Hfailed :
      failed_reads (ev :: rest)
      = ((if read_fails ev then 1 else 0) + failed_reads rest)%nat).
    { unfold failed_reads. simpl. destruct (read_fails ev); reflexivity. }
    rewrite Hfailed, caught_app, error_counts_app, reads_app, length_app.
    splits.
    + exact Hal2.
    + rewrite Hrd1, Hrd2. reflexivity.
    + apply Forall_app. split; assumption.
    + lia.
    + intros H0 Hnone.
      destruct (Hclean1 H0 ltac:(lia)) as [Heq1 H1].
      destruct (Hclean2 H1 ltac:(lia)) as [Heq2 H2].
      split; [|exact H2].
      rewrite repeat_app, Heq1, Heq2.
      destruct (read_fails ev); reflexivity.
Qed.

(** C10, as the code has it. In an iteration whose read fails and goes as
    far as the re-open (the error counted is within the budget), if the
    re-open succeeds then the count compared after the failed read is
    followed by a release and a successful open, and [camera_error_count] is
    0 when the iteration ends, hence before the next read. Consequently, from
    a started session (running, camera opened, count 0), over any run in
    which every failed read is followed by a successful re-open, whatever the
    number of failed reads: the session is still running with its camera
    opened, every iteration went as far as its read, every failed read and
    every caught exception counted one error, and every count compared with
    the budget is 1 or 2. The count is 1 every time, and 0 at the end, in a
    run in which no exception is caught. *)
Theorem reopen_resets_error_count :
  (forall (ev : event) (a a' : App) (out : list action),
      reaches_reopen ev a -> ev_reopen ev = true ->
      iteration ev a = (a', out) ->
      camera_error_count a' = 0 /\ cap a' = Some true /\
      running a' = running a /\ reads out = 1%nat /\
      after_failed_read out =
        Some [ErrorCount
                (if isOpened (cap a) then camera_error_count a + 1 else 1);
              CamRelease; CamOpen true])
  /\
  (forall (evs : list event) (a a' : App) (out : list action),
      running a = true -> cap a = Some true -> camera_error_count a = 0 ->
      Forall (fun ev => ev_read ev = None -> ev_reopen ev = true) evs ->
      detection_loop evs a = (a', out) ->
      running a' = true /\ cap a' = Some true /\
      0 <= camera_error_count a' <= 1 /\
      reads out = length evs /\
      length (error_counts out) = (failed_reads evs + caught out)%nat /\
      Forall (fun n => 1 <= n <= 2) (error_counts out) /\
      (caught out = 0%nat ->
       error_counts out = repeat 1 (failed_reads evs) /\
       camera_error_count a' = 0)).
Proof.
  split.
  - intros ev a a' out Hreach Hreopen Hiter.
    exact (iteration_reopens _ _ _ _ Hreach Hreopen Hiter).
  - intros evs a a' out Hrun Hcap Hcount Hevs Hloop.
    destruct (detection_loop_alive evs a a' out)
      as ((Hr & Hc & Hn) & Hrd & Herr & Hlen & Hclean); auto.
    { unfold alive. splits; auto; lia. }
    splits; auto; try lia; apply Hclean; assumption.
Qed.

Lemma detection_loop_stopped (evs : list event) (a : App) :
  running a = false -> detection_loop evs a = (a, []).
Proof. intros Hrun. destruct evs; simpl; [|rewrite Hrun]; reflexivity. Qed.

Lemma iteration_over_budget (ev : event) (a a' : App) (out : list action) :
  max_camera_errors <= camera_error_count a ->
  camera_fails ev a ->
  iteration ev a = (a', out) ->
  running a' = false /\ cap a' = None /\ In CamRelease out /\
  reads out = (if isOpened (cap a) then 1 else 0)%nat.
Proof.
  intros Hbudget Hfail. unfold camera_fails in Hfail. unfold iteration.
  assert (Hover : (max_camera_errors <? camera_error_count a + 1) = true)
    by (apply Z.ltb_lt; lia).
  destruct (isOpened (cap a)) eqn:Hopen; cbn [negb].
  - unfold read_and_process. rewrite Hfail.
    unfold count_error, stop_detection. simpl. rewrite Hover.
    destruct (cap a); [|discriminate].
    intros [= <- <-]. simpl. intuition.
  - rewrite Hfail. cbn [negb].
    unfold count_error, stop_detection. simpl. rewrite Hover.
    intros [= <- <-]. simpl. intuition.
Qed.

Lemma iteration_open_fails (ev : event) (a a' : App) (out : list action) :
  isOpened (cap a) = false -> ev_open ev = false ->
  camera_error_count a < max_camera_errors ->
  iteration ev a = (a', out) ->
  running a' = running a /\ isOpened (cap a') = false /\
  camera_error_count a' = camera_error_count a + 1 /\
  error_counts out = [camera_error_count a + 1] /\ reads out = 0%nat.
Proof.
  intros Hopen Hfail Hbudget. unfold iteration. rewrite Hopen, Hfail. cbn [negb].
  unfold count_error. simpl.
  assert (Hok : (max_camera_errors <? camera_error_count a + 1) = false)
    by (apply Z.ltb_ge; lia).
  rewrite Hok. intros [= <- <-]. simpl. auto.
Qed.

Lemma iteration_read_and_reopen_fail (ev : event) (a a' : App)
    (out : list action) :
  isOpened (cap a) = true -> ev_read ev = None -> ev_reopen ev = false ->
  camera_error_count a < max_camera_errors ->
  iteration ev a = (a', out) ->
  running a' = running a /\ isOpened (cap a') = false /\
  camera_error_count a' = camera_error_count a + 1 /\
  error_counts out = [camera_error_count a + 1] /\ reads out = 1%nat.
Proof.
  intros Hopen Hread Hreopen Hbudget. unfold iteration. rewrite Hopen. cbn [negb].
  unfold read_and_process, count_error. rewrite Hread, Hreopen. simpl.
  assert (Hok : (max_camera_errors <? camera_error_count a + 1) = false)
    by (apply Z.ltb_ge; lia).
  rewrite Hok. intros [= <- <-]. simpl. auto.
Qed.

(** C5, as the code has it. The session is stopped when a camera failure
    takes [camera_error_count] above [max_camera_errors]: the iteration in
    which a read or a re-open fails with the count already at 5 or more
    clears [running], releases the capture and sets [cap] to [None], and the
    loop then makes no further iteration, so no further read. From a started
    session this takes six failures in a row: a failed read whose re-open
    fails, then five failed attempts to re-open. *)
Theorem budget_exceeded_stops_session :
  (forall (ev : event) (a a' : App) (out : list action),
      max_camera_errors <= camera_error_count a ->
      camera_fails ev a ->
      iteration ev a = (a', out) ->
      running a' = false /\ cap a' = None /\ In CamRelease out /\
      forall evs, detection_loop evs a' = (a', []))
  /\
  (forall (a a' : App) (ev0 e1 e2 e3 e4 e5 : event) (rest : list event)
          (out : list action),
      running a = true -> cap a = Some true -> camera_error_count a = 0 ->
      ev_read ev0 = None -> ev_reopen ev0 = false ->
      Forall (fun ev => ev_open ev = false) [e1; e2; e3; e4; e5] ->
      detection_loop (ev0 :: e1 :: e2 :: e3 :: e4 :: e5 :: rest) a = (a', out) ->
      running a' = false /\ cap a' = None /\
      error_counts out = [1; 2; 3; 4; 5; 6] /\ reads out = 1%nat).
Proof.
  split.
  - intros ev a a' out Hbudget Hfail Hiter.
    destruct (iteration_over_budget _ _ _ _ Hbudget Hfail Hiter)
      as (Hrun & Hcap & Hrel & _).
    splits; auto. intros evs. apply detection_loop_stopped. exact Hrun.
  - intros a a' ev0 e1 e2 e3 e4 e5 rest out Hrun Hcap Hcount Hread Hreopen Hopen.
    repeat match goal with
           | H : Forall _ (_ :: _) |- _ => inversion H; clear H; subst
           | H : Forall _ [] |- _ => clear H
           end.
    cbn [detection_loop]. rewrite Hrun.
    destruct (iteration ev0 a) as [a0 out0] eqn:Hit0.
    apply iteration_read_and_reopen_fail in Hit0;
      [|rewrite Hcap; reflexivity | assumption | assumption
       | unfold max_camera_errors; lia].
    destruct Hit0 as (Hr0 & Hc0 & Hn0 & Herr0 & Hrd0).
    rewrite Hrun in Hr0. rewrite Hcount in Hn0, Herr0. simpl in Hn0, Herr0.
    rewrite Hr0.
    destruct (iteration e1 a0) as [a1 out1] eqn:Hit1.
    apply iteration_open_fails in Hit1;
      [|assumption | assumption | unfold max_camera_errors; lia].
    destruct Hit1 as (Hr1 & Hc1 & Hn1 & Herr1 & Hrd1).
    rewrite Hr0 in Hr1. rewrite Hn0 in Hn1, Herr1. simpl in Hn1, Herr1.
    rewrite Hr1.
    destruct (iteration e2 a1) as [a2 out2] eqn:Hit2.
    apply iteration_open_fails in Hit2;
      [|assumption | assumption | unfold max_camera_errors; lia].
    destruct Hit2 as (Hr2 & Hc2 & Hn2 & Herr2 & Hrd2).
    rewrite Hr1 in Hr2. rewrite Hn1 in Hn2, Herr2. simpl in Hn2, Herr2.
    rewrite Hr2.
    destruct (iteration e3 a2) as [a3 out3] eqn:Hit3.
    apply iteration_open_fails in Hit3;
      [|assumption | assumption | unfold max_camera_errors; lia].
    destruct Hit3 as (Hr3 & Hc3 & Hn3 & Herr3 & Hrd3).
    rewrite Hr2 in Hr3. rewrite Hn2 in Hn3, Herr3. simpl in Hn3, Herr3.
    rewrite Hr3.
    destruct (iteration e4 a3) as [a4 out4] eqn:Hit4.
    apply iteration_open_fails in Hit4;
      [|assumption | assumption | unfold max_camera_errors; lia].
    destruct Hit4 as (Hr4 & Hc4 & Hn4 & Herr4 & Hrd4).
    rewrite Hr3 in Hr4. rewrite Hn3 in Hn4, Herr4. simpl in Hn4, Herr4.
    rewrite Hr4.
    destruct (iteration e5 a4) as [a5 out5] eqn:Hit5.
    assert (Hlast : running a5 = false /\ cap a5 = None /\
                    error_counts out5 = [6] /\ reads out5 = 0%nat).
    { revert Hit5. unfold iteration. rewrite Hc4.
      match goal with H : ev_open e5 = false |- _ => rewrite H end.
      cbn [negb]. unfold count_error, stop_detection. simpl. rewrite Hn4. simpl.
      intros [= <- <-]. simpl. auto. }
    destruct Hlast as (Hr5 & Hc5 & Herr5 & Hrd5).
    rewrite detection_loop_stopped by exact Hr5.
    intros [= <- <-]. trace_simpl.
    rewrite Herr0, Herr1, Herr2, Herr3, Herr4, Herr5.
    rewrite Hrd0, Hrd1, Hrd2, Hrd3, Hrd4, Hrd5. auto.
Qed.

(** ** Enrolment of unknown faces *)

Section Enrolment.

(** [cv2.resize(_, (80, 80))] returns an image of 80 rows and 80 columns. *)
Hypothesis shape_resize80 : forall i : img, shape (resize80 i) = (80, 80).

(** Every member of a group is 80x80, so [size > best_size] holds for the
    first member only: [best_face] is the first member of the group. *)
Lemma best_face_of_first (g : img) (rest : list img) :
  shape g = (80, 80) ->
  Forall (fun g' => shape g' = (80, 80)) rest ->
  best_face_of (g :: rest) = Some g.
Proof.
  intros Hg Hrest. unfold best_face_of. cbn [fold_left]. rewrite Hg.
  change (snd (None (A:=img), 0) <? 80 * 80) with true. cbv iota.
  induction Hrest as [|g' rest Hg' _ IH]; [reflexivity|].
  cbn [fold_left]. rewrite Hg'.
  change (snd (Some g, 80 * 80) <? 80 * 80) with false. cbv iota. exact IH.
Qed.

(** The groups formed from three crops of which [p] and [q] (in this order
    in the buffer) are similar and [r] is distinct from both: wherever [r]
    stands, the only group of two is [p; q], normalised. *)
Lemma group_faces_three (p q r : img) (buffer : list img) :
  buffer = [p; q; r] \/ buffer = [p; r; q] \/ buffer = [r; p; q] ->
  similar (normalised p) (normalised q) ->
  distinct (normalised r) (normalised p) ->
  distinct (normalised r) (normalised q) ->
  group_faces buffer = [[normalised p; normalised q]; [normalised r]] \/
  group_faces buffer = [[normalised r]; [normalised p; normalised q]].
Proof.
  intros Hbuf [Hpq Hqp] [Hrp Hpr] [Hrq Hqr].
  apply Qltb_true in Hpq, Hqp. apply Qltb_false in Hrp, Hpr, Hrq, Hqr.
  unfold normalised in *.
  destruct Hbuf as [-> | [-> | ->]]; unfold group_faces;
    repeat (cbn [fold_left join_group app option_map];
            rewrite ?Hqp, ?Hrp, ?Hpr, ?Hqr, ?Hrq, ?Hpq);
    auto.
Qed.

(** C2, as the code has it. With exactly three crops in the buffer, two of
    which ([p] before [q] in the buffer) score above 0.65 against each other
    while the third scores at most 0.65 against both, the enrolment pass adds
    exactly one identity, named after [next_person_id], and leaves the buffer
    empty. Its template is made from [p], the member of the pair that comes
    first in the buffer: the pixel areas of the crops play no part, since
    every member of a group has been resized to 80x80 before the sizes are
    compared. *)
Theorem enrolment_three_crops (a a' : App) (p q r : img)
    (out : list action) (raised : bool) :
  unknown_faces_buffer a = [p; q; r] \/
  unknown_faces_buffer a = [p; r; q] \/
  unknown_faces_buffer a = [r; p; q] ->
  similar (normalised p) (normalised q) ->
  distinct (normalised r) (normalised p) ->
  distinct (normalised r) (normalised q) ->
  process_unknown_faces a = (a', out, raised) ->
  raised = false /\
  known_faces a' =
    known_faces a ++ [resize80 (bgr2gray (gray2bgr (normalised p)))] /\
  known_face_names a' = known_face_names a ++ [person_name (next_person_id a)] /\
  next_person_id a' = next_person_id a + 1 /\
  unknown_faces_buffer a' = [].
Proof.
  intros Hbuf Hsim Hd1 Hd2.
  assert (Hgroups := group_faces_three p q r _ Hbuf Hsim Hd1 Hd2).
  unfold process_unknown_faces.
  assert (Hlen : (length (unknown_faces_buffer a) <? BUFFER_SIZE)%nat = false)
    by (destruct Hbuf as [-> | [-> | ->]]; reflexivity).
  rewrite Hlen.
  assert (Hbest :
    best_face_of [normalised p; normalised q] = Some (normalised p)).
  { apply best_face_of_first; [apply shape_resize80|].
    repeat constructor. apply shape_resize80. }
  destruct Hgroups as [-> | ->]; cbn [enrol_groups length Nat.leb];
    rewrite Hbest; cbn; intros [= <- <- <-]; auto.
Qed.

End Enrolment.

(** * The rest of the session: more operations and what they keep *)

(** ** The camera, as the trace shows it *)

(** Whether a capture is opened after the camera calls of a trace, given
    whether one was opened before. *)
Fixpoint camera_after (opened : bool) (out : list action) : bool :=
  match out with
  | [] => opened
  | CamOpen b :: rest => camera_after b rest
  | CamRelease :: rest => camera_after false rest
  | _ :: rest => camera_after opened rest
  end.

(** Whether every [cap.read()] of a trace is made on an opened capture. *)
Fixpoint reads_on_opened (opened : bool) (out : list action) : bool :=
  match out with
  | [] => true
  | CamOpen b :: rest => reads_on_opened b rest
  | CamRelease :: rest => reads_on_opened false rest
  | CamRead _ :: rest => opened && reads_on_opened opened rest
  | _ :: rest => reads_on_opened opened rest
  end.

Lemma camera_after_app (opened : bool) (l1 l2 : list action) :
  camera_after opened (l1 ++ l2) = camera_after (camera_after opened l1) l2.
Proof.
  revert opened. induction l1 as [|act l1 IH]; intros opened; [reflexivity|].
  destruct act; simpl; apply IH.
Qed.

Lemma reads_on_opened_app (opened : bool) (l1 l2 : list action) :
  reads_on_opened opened (l1 ++ l2)
  = reads_on_opened opened l1 && reads_on_opened (camera_after opened l1) l2.
Proof.
  revert opened. induction l1 as [|act l1 IH]; intros opened; [reflexivity|].
  destruct act; simpl; rewrite ?IH; try reflexivity.
  rewrite andb_assoc. reflexivity.
Qed.

Lemma face_trace_camera (opened : bool) (out : list action) :
  face_trace out ->
  camera_after opened out = opened /\ reads_on_opened opened out = true.
Proof.
  induction 1 as [|act out Hact _ IH]; [auto|].
  destruct act; simpl; try contradiction; exact IH.
Qed.

Lemma iteration_camera (ev : event) (a a' : App) (out : list action) :
  iteration ev a = (a', out) ->
  reads_on_opened (isOpened (cap a)) out = true /\
  camera_after (isOpened (cap a)) out = isOpened (cap a').
Proof.
  assert (Hread :
    forall b b' out',
      isOpened (cap b) = true ->
      read_and_process ev b = (b', out') ->
      reads_on_opened true out' = true /\
      camera_after true out' = isOpened (cap b')).
  { intros b b' out' Hopen. unfold read_and_process.
    destruct (ev_read ev) as [f|].
    - destruct (process_frame f b) as [[b1 out1] raised] eqn:Hframe.
      destruct (process_frame_effect _ _ _ _ _ Hframe)
        as (_ & Hc & _ & _ & Hft & _).
      destruct (face_trace_camera true _ Hft) as [Hafter Hok].
      destruct raised.
      + unfold count_error, stop_detection. simpl.
        destruct (max_camera_errors <? camera_error_count b1 + 1).
        * rewrite Hc. destruct (cap b) as [o|]; [|discriminate].
          intros [= <- <-]. cbn [reads_on_opened camera_after andb].
          rewrite reads_on_opened_app, camera_after_app, Hok, Hafter.
          simpl. auto.
        * intros [= <- <-]. cbn [reads_on_opened camera_after andb].
          rewrite reads_on_opened_app, camera_after_app, Hok, Hafter.
          simpl. rewrite Hc, Hopen. auto.
      + intros [= <- <-]. cbn [reads_on_opened camera_after andb].
        rewrite Hok, Hafter, Hc, Hopen. auto.
    - unfold count_error, stop_detection. simpl.
      destruct (max_camera_errors <? camera_error_count b + 1).
      + destruct (cap b) as [o|]; [|discriminate].
        intros [= <- <-]. simpl. auto.
      + intros [= <- <-]. simpl. destruct (ev_reopen ev); auto. }
  unfold iteration. destruct (isOpened (cap a)) eqn:Hopen; cbn [negb].
  - apply Hread. exact Hopen.
  - destruct (ev_open ev) eqn:Hev; cbn [negb].
    + destruct (read_and_process ev _) as [a2 out2] eqn:Hrp.
      apply Hread in Hrp; [|reflexivity]. destruct Hrp as [Hok Hafter].
      intros [= <- <-]. simpl. auto.
    + unfold count_error, stop_detection. simpl.
      destruct (max_camera_errors <? camera_error_count a + 1);
        intros [= <- <-]; simpl; auto.
Qed.

(** The loop never reads from a capture that is missing or not opened:
    every [cap.read()] of a run comes after a successful open that no
    release or failed open has undone. *)
Theorem detection_loop_reads_on_opened (evs : list event) :
  forall (a a' : App) (out : list action),
    detection_loop evs a = (a', out) ->
    reads_on_opened (isOpened (cap a)) out = true /\
    camera_after (isOpened (cap a)) out = isOpened (cap a').
Proof.
  induction evs as [|ev rest IH]; intros a a' out; cbn [detection_loop].
  - intros [= <- <-]. auto.
  - destruct (running a); [|intros [= <- <-]; auto].
    destruct (iteration ev a) as [a1 out1] eqn:Hiter.
    destruct (detection_loop rest a1) as [a2 out2] eqn:Hloop.
    intros [= <- <-].
    destruct (iteration_camera _ _ _ _ Hiter) as [Hok1 Hafter1].
    destruct (IH _ _ _ Hloop) as [Hok2 Hafter2].
    rewrite reads_on_opened_app, camera_after_app, Hok1, Hafter1. auto.
Qed.

(** ** The error count *)

Ltac budget_lia := unfold max_camera_errors in *; simpl in *; lia.

Lemma iteration_error_count (ev : event) (a a' : App) (out : list action) :
  running a = true ->
  0 <= camera_error_count a <= max_camera_errors ->
  iteration ev a = (a', out) ->
  Forall (fun n => 1 <= n <= max_camera_errors + 1) (error_counts out) /\
  ((running a' = true /\ 0 <= camera_error_count a' <= max_camera_errors) \/
   (running a' = false /\ cap a' = None /\
    camera_error_count a' = max_camera_errors + 1)).
Proof.
  intros Hrun Hcount.
  assert (Hce :
    forall msg b b' out' stopped,
      running b = true ->
      0 <= camera_error_count b <= max_camera_errors ->
      count_error msg b = (b', out', stopped) ->
      error_counts out' = [camera_error_count b + 1] /\
      ((stopped = false /\ running b' = true /\ cap b' = cap b /\
        camera_error_count b' = camera_error_count b + 1 /\
        camera_error_count b + 1 <= max_camera_errors) \/
       (stopped = true /\ running b' = false /\ cap b' = None /\
        camera_error_count b' = max_camera_errors + 1))).
  { intros msg b b' out' stopped Hr Hc. unfold count_error, stop_detection.
    simpl. destruct (max_camera_errors <? camera_error_count b + 1) eqn:Hlt.
    - apply Z.ltb_lt in Hlt.
      destruct (cap b) eqn:Hcap; intros [= <- <- <-]; simpl;
        (split; [reflexivity|]); right; splits; auto;
        budget_lia.
    - apply Z.ltb_ge in Hlt. intros [= <- <- <-]. simpl.
      split; [reflexivity|]. left. splits; auto. }
  assert (Hread :
    forall b b' out',
      running b = true ->
      0 <= camera_error_count b <= max_camera_errors ->
      read_and_process ev b = (b', out') ->
      Forall (fun n => 1 <= n <= max_camera_errors + 1) (error_counts out') /\
      ((running b' = true /\ 0 <= camera_error_count b' <= max_camera_errors) \/
       (running b' = false /\ cap b' = None /\
        camera_error_count b' = max_camera_errors + 1))).
  { intros b b' out' Hr Hc. unfold read_and_process.
    destruct (ev_read ev) as [f|].
    - destruct (process_frame f b) as [[b1 out1] raised] eqn:Hframe.
      destruct (process_frame_effect _ _ _ _ _ Hframe)
        as (Hr1 & _ & Hn1 & _ & Hft & _).
      apply face_trace_error_counts in Hft.
      destruct raised.
      + destruct (count_error _ b1) as [[b2 out2] stopped] eqn:Hcount2.
        apply Hce in Hcount2;
          [|congruence | rewrite Hn1; budget_lia].
        destruct Hcount2 as [Herr Hcases]. rewrite Hn1 in Herr, Hcases.
        intros [= <- <-]. trace_simpl. rewrite Hft, Herr. split.
        * repeat constructor; budget_lia.
        * destruct Hcases as [(_ & ? & _ & ? & ?) | (_ & ? & ? & ?)];
            [left | right]; splits; auto; budget_lia.
      + intros [= <- <-]. trace_simpl. rewrite Hft. split; [constructor|].
        left. split; [congruence|]. rewrite Hn1. budget_lia.
    - destruct (count_error _ b) as [[b1 out1] stopped] eqn:Hcount1.
      apply Hce in Hcount1; auto. destruct Hcount1 as [Herr Hcases].
      destruct Hcases as [(-> & ? & ? & ? & ?) | (-> & ? & ? & ?)];
        intros [= <- <-]; trace_simpl; rewrite Herr; simpl;
        (split; [repeat constructor; budget_lia|]).
      + left. destruct (ev_reopen ev); simpl; split; auto;
          budget_lia.
      + right. auto. }
  unfold iteration. destruct (negb (isOpened (cap a))).
  - destruct (negb (ev_open ev)).
    + destruct (count_error _ _) as [[a2 out2] stopped] eqn:Hcount2.
      apply Hce in Hcount2; auto. simpl in Hcount2.
      destruct Hcount2 as [Herr Hcases].
      intros [= <- <-]. trace_simpl. rewrite Herr. split.
      * repeat constructor; budget_lia.
      * destruct Hcases as [(_ & ? & _ & ? & ?) | (_ & ? & ? & ?)];
          [left | right]; splits; auto; budget_lia.
    + destruct (read_and_process ev _) as [a2 out2] eqn:Hrp.
      apply Hread in Hrp; [|exact Hrun | simpl; budget_lia].
      intros [= <- <-]. trace_simpl. exact Hrp.
  - apply Hread; assumption.
Qed.

(** Over any run of the loop from a running session with at most 5 counted
    errors: every count compared with the budget is between 1 and 6, a
    session still running has at most 5 counted errors, and a session the
    loop has stopped has exactly 6 and holds no capture. *)
Theorem detection_loop_error_count (evs : list event) :
  forall (a a' : App) (out : list action),
    running a = true ->
    0 <= camera_error_count a <= max_camera_errors ->
    detection_loop evs a = (a', out) ->
    Forall (fun n => 1 <= n <= max_camera_errors + 1) (error_counts out) /\
    ((running a' = true /\ 0 <= camera_error_count a' <= max_camera_errors) \/
     (running a' = false /\ cap a' = None /\
      camera_error_count a' = max_camera_errors + 1)).
Proof.
  induction evs as [|ev rest IH]; intros a a' out Hrun Hcount;
    cbn [detection_loop].
  - intros [= <- <-]. split; [constructor | left; auto].
  - rewrite Hrun.
    destruct (iteration ev a) as [a1 out1] eqn:Hiter.
    destruct (detection_loop rest a1) as [a2 out2] eqn:Hloop.
    intros [= <- <-].
    destruct (iteration_error_count _ _ _ _ Hrun Hcount Hiter) as [Herr1 Hcases].
    trace_simpl.
    destruct Hcases as [[Hrun1 Hcount1] | (Hrun1 & Hcap1 & Hcount1)].
    + destruct (IH _ _ _ Hrun1 Hcount1 Hloop) as [Herr2 Hcases2].
      split; [apply Forall_app; split; assumption | exact Hcases2].
    + rewrite detection_loop_stopped in Hloop by exact Hrun1.
      injection Hloop as <- <-. rewrite app_nil_r.
      split; [exact Herr1 | right; auto].
Qed.

(** ** Starting and stopping *)

(** What neither [start_detection] nor [stop_detection] touches. *)
Definition same_tracker (a a' : App) : Prop :=
  saved_faces a' = saved_faces a /\
  SAVE_INTERVAL a' = SAVE_INTERVAL a /\
  MATCH_THRESHOLD a' = MATCH_THRESHOLD a /\
  known_faces a' = known_faces a /\
  known_face_names a' = known_face_names a /\
  next_person_id a' = next_person_id a /\
  unknown_faces_buffer a' = unknown_faces_buffer a /\
  last_process_time a' = last_process_time a /\
  frame_queue a' = frame_queue a.

(** [stop_detection] is idempotent: it releases the capture when one is
    held, and a second call changes nothing and releases nothing; after it
    the loop makes no iteration. *)
Theorem stop_detection_idempotent (a : App) :
  snd (stop_detection a)
  = match cap a with Some _ => [CamRelease] | None => [] end /\
  stop_detection (fst (stop_detection a)) = (fst (stop_detection a), []) /\
  same_tracker a (fst (stop_detection a)) /\
  forall evs,
    detection_loop evs (fst (stop_detection a)) = (fst (stop_detection a), []).
Proof.
  unfold stop_detection. simpl.
  destruct (cap a) eqn:Hcap; simpl; splits; auto;
    try (intros evs; apply detection_loop_stopped; reflexivity);
    try (unfold same_tracker; simpl; splits; reflexivity).
  rewrite Hcap. reflexivity.
Qed.

(** [start_detection] does nothing while the session runs (no second capture
    is opened). From a stopped session, with a camera that opens it gives a
    running session with the capture opened and no error counted, whatever
    the count was; with a camera that does not open it releases the failed
    capture and leaves the stopped session as it was. The saved faces, the
    buffer, the gallery and the display queue go through a stop and a start
    untouched. *)
Theorem start_detection_outcomes (a : App) :
  (forall opened, running a = true -> start_detection opened a = (a, [])) /\
  (let a1 := fst (stop_detection a) in
   start_detection false a1
   = (a1, [CamOpen false; Status "Error: Could not open camera"; CamRelease])) /\
  (let a2 := fst (start_detection true (fst (stop_detection a))) in
   snd (start_detection true (fst (stop_detection a))) = [CamOpen true] /\
   running a2 = true /\ cap a2 = Some true /\ camera_error_count a2 = 0 /\
   same_tracker a a2).
Proof.
  split.
  - intros opened Hrun. unfold start_detection. rewrite Hrun. reflexivity.
  - destruct a as [r c n sf si mt kf kn ni ub lp fq].
    unfold start_detection, stop_detection, same_tracker.
    destruct c; simpl; splits; reflexivity.
Qed.

(** ** The gallery *)

(** [k] consecutive identity numbers from [n] on. *)
Fixpoint new_ids (n : Z) (k : nat) : list Z :=
  match k with
  | O => []
  | S k' => n :: new_ids (n + 1) k'
  end.

Lemma new_ids_app (k1 k2 : nat) :
  forall n,
    new_ids n (k1 + k2) = new_ids n k1 ++ new_ids (n + Z.of_nat k1) k2.
Proof.
  induction k1 as [|k1 IH]; intros n.
  - simpl. rewrite Z.add_0_r. reflexivity.
  - cbn [Nat.add new_ids app]. rewrite IH. do 3 f_equal. lia.
Qed.

Lemma new_ids_length (k : nat) : forall n, length (new_ids n k) = k.
Proof. induction k as [|k IH]; intros n; simpl; [|rewrite IH]; reflexivity. Qed.

Lemma new_ids_ge (k : nat) :
  forall n m, In m (new_ids n k) -> n <= m < n + Z.of_nat k.
Proof.
  induction k as [|k IH]; intros n m; [intros []|].
  cbn [new_ids]. intros [<-|Hin]; [lia|]. apply IH in Hin. lia.
Qed.

Lemma new_ids_NoDup (k : nat) : forall n, NoDup (new_ids n k).
Proof.
  induction k as [|k IH]; intros n; cbn [new_ids]; constructor.
  - intros Hin. apply new_ids_ge in Hin. lia.
  - apply IH.
Qed.

(** The gallery of [a'] is the gallery of [a] followed by [templates], named
    by consecutive identity numbers starting at [next_person_id a]. *)
Definition enrolled (a a' : App) (templates : list img) : Prop :=
  known_faces a' = known_faces a ++ templates /\
  known_face_names a' =
    known_face_names a
    ++ map person_name (new_ids (next_person_id a) (length templates)) /\
  next_person_id a' = next_person_id a + Z.of_nat (length templates).

Definition same_gallery (a a' : App) : Prop :=
  known_faces a' = known_faces a /\
  known_face_names a' = known_face_names a /\
  next_person_id a' = next_person_id a.

Lemma same_gallery_refl (a : App) : same_gallery a a.
Proof. unfold same_gallery. auto. Qed.

Lemma same_gallery_enrolled (a a' : App) :
  same_gallery a a' -> enrolled a a' [].
Proof.
  intros (Hf & Hn & Hi). unfold enrolled. simpl.
  rewrite !app_nil_r, Z.add_0_r. auto.
Qed.

Lemma enrolled_trans (a b c : App) (t1 t2 : list img) :
  enrolled a b t1 -> enrolled b c t2 -> enrolled a c (t1 ++ t2).
Proof.
  intros (Hf1 & Hn1 & Hi1) (Hf2 & Hn2 & Hi2). unfold enrolled.
  rewrite Hf2, Hf1, Hn2, Hn1, Hi2, Hi1, length_app, new_ids_app, map_app.
  rewrite <- !app_assoc. splits; auto. lia.
Qed.

Lemma enrolled_same_left (a b c : App) (t : list img) :
  same_gallery a b -> enrolled b c t -> enrolled a c t.
Proof.
  intros Hs He. apply same_gallery_enrolled in Hs.
  exact (enrolled_trans _ _ _ _ _ Hs He).
Qed.

Lemma enrolled_same_right (a b c : App) (t : list img) :
  enrolled a b t -> same_gallery b c -> enrolled a c t.
Proof.
  intros He Hs. apply same_gallery_enrolled in Hs.
  rewrite <- (app_nil_r t). exact (enrolled_trans _ _ _ _ _ He Hs).
Qed.

Lemma add_new_person_enrolled (face_img : img) (a : App) :
  enrolled a (fst (add_new_person face_img a)) [resize80 (bgr2gray face_img)].
Proof. unfold enrolled, add_new_person. simpl. auto. Qed.

Lemma enrol_groups_enrolled (groups : list (list img)) :
  forall (a a' : App) (out : list action) (raised : bool),
    enrol_groups groups a = (a', out, raised) ->
    exists templates, enrolled a a' templates.
Proof.
  induction groups as [|group rest IH]; intros a a' out raised;
    cbn [enrol_groups].
  - intros [= <- <- <-]. exists []. apply same_gallery_enrolled, same_gallery_refl.
  - destruct (2 <=? length group)%nat; [|apply IH].
    destruct (best_face_of group) as [best_face|].
    + pose proof (add_new_person_enrolled (gray2bgr best_face) a) as Hadd.
      destruct (add_new_person (gray2bgr best_face) a) as [a1 out1].
      destruct (enrol_groups rest a1) as [[a2 out2] r2] eqn:Hrest.
      intros [= <- <- <-]. apply IH in Hrest. destruct Hrest as [t Ht].
      eexists. eapply enrolled_trans; eassumption.
    + intros [= <- <- <-]. exists [].
      apply same_gallery_enrolled, same_gallery_refl.
Qed.

Lemma process_unknown_faces_enrolled (a a' : App) (out : list action)
    (raised : bool) :
  process_unknown_faces a = (a', out, raised) ->
  exists templates, enrolled a a' templates.
Proof.
  unfold process_unknown_faces.
  destruct (length (unknown_faces_buffer a) <? BUFFER_SIZE)%nat.
  - intros [= <- <- <-]. exists []. apply same_gallery_enrolled, same_gallery_refl.
  - destruct (enrol_groups _ a) as [[a1 out1] r1] eqn:Henrol.
    apply enrol_groups_enrolled in Henrol. destruct Henrol as [t Ht].
    destruct r1; intros [= <- <- <-]; exists t; [exact Ht|].
    eapply enrolled_same_right; [exact Ht|]. unfold same_gallery. simpl. auto.
Qed.

Lemma process_face_gallery (now : Q) (d : detection) (a a' : App)
    (out : list action) :
  process_face now d a = Some (a', out) -> same_gallery a a'.
Proof.
  unfold process_face. destruct (det_cv_error d); [discriminate|].
  destruct (recognise a d) as [name|]; [|discriminate].
  destruct (save_face_of _ _ _ _ _); simpl;
    [destruct (String.eqb name Unknown)|]; intros [= <- <-];
    unfold same_gallery; simpl; auto.
Qed.

Lemma process_faces_gallery (now : Q) (ds : list detection) :
  forall (a a' : App) (out : list action) (raised : bool),
    process_faces now ds a = (a', out, raised) -> same_gallery a a'.
Proof.
  induction ds as [|d rest IH]; intros a a' out raised; cbn [process_faces].
  - intros [= <- <- <-]. apply same_gallery_refl.
  - destruct (process_face now d a) as [[a1 out1]|] eqn:Hface.
    + destruct (process_faces now rest a1) as [[a2 out2] r2] eqn:Hrest.
      intros [= <- <- <-]. apply process_face_gallery in Hface.
      apply IH in Hrest. unfold same_gallery in *. intuition congruence.
    + intros [= <- <- <-]. apply same_gallery_refl.
Qed.

Lemma process_frame_enrolled (f : frame_in) (a a' : App) (out : list action)
    (raised : bool) :
  process_frame f a = (a', out, raised) ->
  exists templates, enrolled a a' templates.
Proof.
  unfold process_frame. set (a0 := set_camera_error_count 0 a).
  assert (H0 : same_gallery a a0) by (unfold same_gallery; simpl; auto).
  destruct (frame_cv_error f).
  { intros [= <- <- <-]. exists []. apply same_gallery_enrolled, H0. }
  assert (Hpre :
    forall a1 out1 r1,
      (if Qltb PROCESS_INTERVAL (current_time f - last_process_time a0)
       then let '(a_, out_, raised_) := process_unknown_faces a0 in
            if raised_ then (a_, out_, true)
            else (set_last_process_time (current_time f) a_, out_, false)
       else (a0, [], false)) = (a1, out1, r1) ->
      exists templates, enrolled a a1 templates).
  { intros a1 out1 r1. destruct (Qltb PROCESS_INTERVAL _).
    - destruct (process_unknown_faces a0) as [[a_ out_] r_] eqn:Hpuf.
      apply process_unknown_faces_enrolled in Hpuf. destruct Hpuf as [t Ht].
      destruct r_; intros [= <- <- <-]; exists t.
      + eapply enrolled_same_left; eassumption.
      + eapply enrolled_same_right;
          [eapply enrolled_same_left; eassumption|].
        unfold same_gallery. simpl. auto.
    - intros [= <- <- <-]. exists []. apply same_gallery_enrolled, H0. }
  destruct (if Qltb PROCESS_INTERVAL _ then _ else _) as [[a1 out1] r1].
  destruct (Hpre _ _ _ eq_refl) as [t Ht]. clear Hpre.
  destruct r1; [intros [= <- <- <-]; exists t; exact Ht|].
  destruct (process_faces (current_time f) (faces f) a1)
    as [[a2 out2] r2] eqn:Hfaces.
  apply process_faces_gallery in Hfaces.
  destruct r2; intros [= <- <- <-]; exists t.
  - eapply enrolled_same_right; eassumption.
  - eapply enrolled_same_right; [eapply enrolled_same_right; eassumption|].
    unfold same_gallery. simpl. auto.
Qed.

Lemma count_error_gallery (msg : string) (a a' : App) (out : list action)
    (stopped : bool) :
  count_error msg a = (a', out, stopped) -> same_gallery a a'.
Proof.
  unfold count_error, stop_detection. simpl.
  destruct (max_camera_errors <? camera_error_count a + 1);
    [destruct (cap a)|]; intros [= <- <- <-]; unfold same_gallery; simpl; auto.
Qed.

Lemma iteration_enrolled (ev : event) (a a' : App) (out : list action) :
  iteration ev a = (a', out) -> exists templates, enrolled a a' templates.
Proof.
  assert (Hread :
    forall b b' out',
      read_and_process ev b = (b', out') ->
      exists templates, enrolled b b' templates).
  { intros b b' out'. unfold read_and_process.
    destruct (ev_read ev) as [f|].
    - destruct (process_frame f b) as [[b1 out1] raised] eqn:Hframe.
      apply process_frame_enrolled in Hframe. destruct Hframe as [t Ht].
      destruct raised.
      + destruct (count_error _ b1) as [[b2 out2] stopped] eqn:Hcount.
        apply count_error_gallery in Hcount.
        intros [= <- <-]. exists t. eapply enrolled_same_right; eassumption.
      + intros [= <- <-]. exists t. exact Ht.
    - destruct (count_error _ b) as [[b1 out1] stopped] eqn:Hcount.
      apply count_error_gallery in Hcount.
      destruct stopped; intros [= <- <-]; exists [];
        apply same_gallery_enrolled; [exact Hcount|].
      destruct (ev_reopen ev); unfold same_gallery in *; simpl; exact Hcount. }
  unfold iteration. destruct (negb (isOpened (cap a))); [|apply Hread].
  destruct (negb (ev_open ev)).
  - destruct (count_error _ _) as [[a2 out2] stopped] eqn:Hcount.
    apply count_error_gallery in Hcount. intros [= <- <-]. exists [].
    apply same_gallery_enrolled. exact Hcount.
  - destruct (read_and_process ev _) as [a2 out2] eqn:Hrp.
    apply Hread in Hrp. destruct Hrp as [t Ht].
    intros [= <- <-]. exists t. eapply enrolled_same_left; [|exact Ht].
    unfold same_gallery. simpl. auto.
Qed.

Lemma detection_loop_enrolled (evs : list event) :
  forall (a a' : App) (out : list action),
    detection_loop evs a = (a', out) ->
    exists templates, enrolled a a' templates.
Proof.
  induction evs as [|ev rest IH]; intros a a' out; cbn [detection_loop].
  - intros [= <- <-]. exists []. apply same_gallery_enrolled, same_gallery_refl.
  - destruct (running a).
    2:{ intros [= <- <-]. exists [].
        apply same_gallery_enrolled, same_gallery_refl. }
    destruct (iteration ev a) as [a1 out1] eqn:Hiter.
    destruct (detection_loop rest a1) as [a2 out2] eqn:Hloop.
    intros [= <- <-]. apply iteration_enrolled in Hiter. apply IH in Hloop.
    destruct Hiter as [t1 H1]. destruct Hloop as [t2 H2].
    exists (t1 ++ t2). eapply enrolled_trans; eassumption.
Qed.

(** Over any run of the loop the gallery only grows at its end: the
    templates and names it had stay where they are, the new identities are
    named Person_n, Person_n+1, ... from [next_person_id] on, which advances
    by their number; and templates and names stay of equal length. *)
Theorem detection_loop_gallery_grows (evs : list event) (a a' : App)
    (out : list action) :
  detection_loop evs a = (a', out) ->
  (exists templates,
      known_faces a' = known_faces a ++ templates /\
      known_face_names a' =
        known_face_names a
        ++ map person_name (new_ids (next_person_id a) (length templates)) /\
      next_person_id a' = next_person_id a + Z.of_nat (length templates)) /\
  (length (known_face_names a) = length (known_faces a) ->
   length (known_face_names a') = length (known_faces a')).
Proof.
  intros Hloop. apply detection_loop_enrolled in Hloop.
  destruct Hloop as [t (Hf & Hn & Hi)]. split.
  - exists t. auto.
  - intros Hlen. rewrite Hf, Hn, !length_app, length_map, Hlen. f_equal.
    clear. generalize (next_person_id a).
    induction (length t) as [|k IH]; intros n; simpl; auto.
Qed.

(** ** Labels *)

Lemma match_loop_names (face_roi : img) (names : list string) :
  forall (gallery : list img) (i : nat) (best : Q) (best_name : string)
         (b : Q) (n : string),
    match_loop face_roi gallery names i best best_name = Some (b, n) ->
    n = best_name \/ In n names.
Proof.
  induction gallery as [|kf rest IH]; intros i best best_name b n;
    cbn [match_loop].
  - intros [= <- <-]. left. reflexivity.
  - destruct (Qltb best (ncc face_roi kf)).
    + destruct (nth_error names i) as [n0|] eqn:Hn0; [|discriminate].
      intros Hrun. apply IH in Hrun. destruct Hrun as [-> | Hin]; [|auto].
      right. eapply nth_error_In. exact Hn0.
    + apply IH.
Qed.

Lemma recognise_label (a : App) (d : detection) :
  length (known_face_names a) = length (known_faces a) ->
  exists name,
    recognise a d = Some name /\
    (name = Unknown \/ In name (known_face_names a)).
Proof.
  intros Hlen. unfold recognise.
  destruct ((MIN_RECOGNITION_SIZE <=? det_w d)
            && (MIN_RECOGNITION_SIZE <=? det_h d)
            && (0 <? length (known_faces a))%nat); [|eauto].
  destruct (match_loop_spec (resize80 (det_roi d)) (known_face_names a)
              (known_faces a) 0 0 Unknown) as (b & n & Hrun & _);
    [simpl; lia|].
  rewrite Hrun. apply match_loop_names in Hrun.
  destruct (Qltb (MATCH_THRESHOLD a) b); eauto.
Qed.

(** With as many names as templates, labelling a face never raises, and the
    label is "Unknown" or one of the names of the gallery; the loop body then
    raises only when one of its OpenCV calls does. *)
Theorem recognise_never_raises (a : App) (d : detection) :
  length (known_face_names a) = length (known_faces a) ->
  (exists name,
      recognise a d = Some name /\
      (name = Unknown \/ In name (known_face_names a))) /\
  (forall now, det_cv_error d = false -> process_face now d a <> None).
Proof.
  intros Hlen. pose proof (recognise_label a d Hlen) as Hrec.
  split; [exact Hrec|].
  intros now Hcv. destruct Hrec as (name & Hname & _).
  unfold process_face. rewrite Hcv, Hname.
  destruct (save_face_of _ _ _ _ _); simpl;
    [destruct (String.eqb name Unknown)|]; discriminate.
Qed.

(** Lowering the match threshold never loses a match: a face given a name
    with the slider at [t2] is given the same name at any lower [t1]. *)
Theorem lower_threshold_keeps_matches (a : App) (d : detection) (t1 t2 : Q)
    (name : string) :
  (t1 <= t2)%Q ->
  recognise (update_match_threshold t2 a) d = Some name ->
  name <> Unknown ->
  recognise (update_match_threshold t1 a) d = Some name.
Proof.
  intros Ht. unfold recognise. simpl.
  destruct ((MIN_RECOGNITION_SIZE <=? det_w d)
            && (MIN_RECOGNITION_SIZE <=? det_h d)
            && (0 <? length (known_faces a))%nat); [|auto].
  destruct (match_loop _ _ _ _ _ _) as [[b n]|]; [|discriminate].
  destruct (Qltb t2 b) eqn:H2; intros [= <-] Hname; [|congruence].
  apply Qltb_true in H2.
  assert (H1 : Qltb t1 b = true) by (apply Qltb_true; lra).
  rewrite H1. reflexivity.
Qed.

(** ** The gate and the save interval *)

(** Lengthening the save interval never lets through a detection that a
    shorter one suppresses; saved faces that are all at least the interval
    old suppress nothing; and a saved face that is closer than
    [DISTANCE_THRESHOLD] and younger than the interval always suppresses. *)
Theorem save_interval_monotone (a : App) (cx cy : Z) (now : Q) :
  (forall si1 si2,
      (si1 <= si2)%Q ->
      save_face_of (SAVE_INTERVAL (update_save_interval si2 a))
        (saved_faces a) cx cy now = true ->
      save_face_of (SAVE_INTERVAL (update_save_interval si1 a))
        (saved_faces a) cx cy now = true) /\
  ((forall s, In s (saved_faces a) -> (SAVE_INTERVAL a <= now - st s)%Q) ->
   save_face_of (SAVE_INTERVAL a) (saved_faces a) cx cy now = true) /\
  (forall s,
      In s (saved_faces a) ->
      closer_than DISTANCE_THRESHOLD cx cy (sx s) (sy s) = true ->
      (now - st s < SAVE_INTERVAL a)%Q ->
      save_face_of (SAVE_INTERVAL a) (saved_faces a) cx cy now = false).
Proof.
  splits.
  - intros si1 si2 Hle. simpl. rewrite !save_face_of_true.
    intros H2 s Hin [Hclose Hyoung]. apply (H2 s Hin). split; [exact Hclose|lra].
  - intros Hold. apply save_face_of_true. intros s Hin [_ Hyoung].
    specialize (Hold s Hin). lra.
  - intros s Hin Hclose Hyoung.
    apply not_true_is_false. intros Hacc. rewrite save_face_of_true in Hacc.
    apply (Hacc s Hin). split; assumption.
Qed.

Lemma process_faces_saved (now : Q) (ds : list detection) :
  forall (a a' : App) (out : list action) (raised : bool),
    process_faces now ds a = (a', out, raised) ->
    saved_faces a' = saved_faces a ++ accepted out /\
    Forall (fun s => st s = now) (accepted out).
Proof.
  induction ds as [|d rest IH]; intros a a' out raised; cbn [process_faces].
  - intros [= <- <- <-]. simpl. rewrite app_nil_r. auto.
  - destruct (process_face now d a) as [[a1 out1]|] eqn:Hface.
    + destruct (process_faces now rest a1) as [[a2 out2] r2] eqn:Hrest.
      intros [= <- <- <-].
      destruct (process_face_effect _ _ _ _ _ Hface) as (_ & _ & _ & Hs1 & Hacc1).
      destruct (IH _ _ _ _ Hrest) as [Hs2 Hall2].
      rewrite accepted_app, Hs2, Hs1, Hacc1. split.
      * destruct (save_face_of _ _ _ _ _); simpl;
          rewrite <- ?app_assoc; reflexivity.
      * apply Forall_app. split; [|exact Hall2].
        destruct (save_face_of _ _ _ _ _); repeat constructor.
    + intros [= <- <- <-]. simpl. rewrite app_nil_r. auto.
Qed.

(** After a frame handled to its end, [saved_faces] is what it was, followed
    by the sightings accepted in the frame, less the entries that are at
    least [SAVE_INTERVAL] old: every saved face is younger than the interval,
    and every sighting accepted in the frame is stamped with the time of the
    frame. *)
Theorem complete_frame_prunes (f : frame_in) (a a' : App) (out : list action) :
  process_frame f a = (a', out, false) ->
  saved_faces a' =
    clean_saved_faces (SAVE_INTERVAL a) (current_time f)
      (saved_faces a ++ accepted out) /\
  Forall (fun s => (current_time f - st s < SAVE_INTERVAL a)%Q)
    (saved_faces a') /\
  Forall (fun s => st s = current_time f) (accepted out).
Proof.
  intros Hframe.
  assert (Hmain :
    saved_faces a' =
      clean_saved_faces (SAVE_INTERVAL a) (current_time f)
        (saved_faces a ++ accepted out) /\
    Forall (fun s => st s = current_time f) (accepted out)).
  { revert Hframe. unfold process_frame.
    set (a0 := set_camera_error_count 0 a).
    destruct (frame_cv_error f); [discriminate|].
    assert (Hpre :
      forall a1 out1 r1,
        (if Qltb PROCESS_INTERVAL (current_time f - last_process_time a0)
         then let '(a_, out_, raised_) := process_unknown_faces a0 in
              if raised_ then (a_, out_, true)
              else (set_last_process_time (current_time f) a_, out_, false)
         else (a0, [], false)) = (a1, out1, r1) ->
        saved_faces a1 = saved_faces a /\ SAVE_INTERVAL a1 = SAVE_INTERVAL a /\
        accepted out1 = []).
    { intros a1 out1 r1. destruct (Qltb PROCESS_INTERVAL _).
      - destruct (process_unknown_faces a0) as [[a_ out_] r_] eqn:Hpuf.
        apply process_unknown_faces_session in Hpuf.
        destruct Hpuf as [(_ & _ & _ & Hs & Hsi & _) Ho].
        apply only_status_accepted in Ho.
        destruct r_; intros [= <- <- <-]; simpl; auto.
      - intros [= <- <- <-]. auto. }
    destruct (if Qltb PROCESS_INTERVAL _ then _ else _) as [[a1 out1] r1].
    destruct (Hpre _ _ _ eq_refl) as (Hs1 & Hsi1 & Hacc1). clear Hpre.
    destruct r1; [discriminate|].
    destruct (process_faces (current_time f) (faces f) a1)
      as [[a2 out2] r2] eqn:Hfaces.
    destruct (process_faces_effect _ _ _ _ _ _ Hfaces) as ((_ & _ & _ & Hsi2 & _) & _).
    apply process_faces_saved in Hfaces. destruct Hfaces as [Hs2 Hall2].
    destruct r2; [discriminate|]. intros [= <- <-]. simpl.
    rewrite accepted_app, Hacc1, Hs2, Hs1, Hsi2, Hsi1. simpl. auto. }
  destruct Hmain as [Hsaved Hall]. splits; auto.
  rewrite Hsaved. unfold clean_saved_faces. apply Forall_forall.
  intros s Hin. apply filter_In in Hin. destruct Hin as [_ Hyoung].
  apply Qltb_true. exact Hyoung.
Qed.

(** ** What happens to an accepted face *)

(** The three outcomes of the loop body. A suppressed detection changes
    nothing. An accepted face labelled "Unknown" is buffered for enrolment
    and not logged. An accepted face with a name is logged under that name
    and not buffered. The gallery is never touched. *)
Theorem face_is_buffered_or_logged (now : Q) (d : detection) (a a' : App)
    (out : list action) :
  process_face now d a = Some (a', out) ->
  exists name,
    recognise a d = Some name /\
    let save_face :=
      save_face_of (SAVE_INTERVAL a) (saved_faces a) (center_x d) (center_y d)
        now in
    (save_face = false -> a' = a) /\
    unknown_faces_buffer a' =
      (if save_face && String.eqb name Unknown
       then unknown_faces_buffer a ++ [det_face_img d]
       else unknown_faces_buffer a) /\
    (forall n, In (LogAttendance n) out <->
               (save_face = true /\ name <> Unknown /\ n = name)) /\
    same_gallery a a'.
Proof.
  intros Hface. pose proof (process_face_gallery _ _ _ _ _ Hface) as Hgal.
  revert Hface. unfold process_face.
  destruct (det_cv_error d); [discriminate|].
  destruct (recognise a d) as [name|]; [|discriminate].
  intros Hface. exists name. split; [reflexivity|]. revert Hface.
  destruct (save_face_of _ _ _ _ _); simpl.
  - destruct (String.eqb name Unknown) eqn:Heq; intros [= <- <-]; simpl;
      splits; auto; try discriminate.
    + apply String.eqb_eq in Heq. intros n. split.
      * intros [H|[]]. discriminate.
      * intros (_ & Hne & _). contradiction.
    + apply String.eqb_neq in Heq. intros n. split.
      * intros [H|[H|[]]]; [discriminate|]. injection H as <-. auto.
      * intros (_ & _ & ->). right. left. reflexivity.
  - intros [= <- <-]. splits; auto. intros n. split.
    + intros [H|[]]. discriminate.
    + intros (H & _). discriminate.
Qed.

(** ** Names of new identities *)

Lemma to_int_not_nil (n : Z) :
  Z.to_int n <> Decimal.Pos Decimal.Nil /\ Z.to_int n <> Decimal.Neg Decimal.Nil.
Proof.
  destruct n as [|p|p]; simpl; split; try discriminate;
    intros [= H]; exact (DecimalPos.Unsigned.to_uint_nonnil p H).
Qed.

Lemma person_name_inj (n m : Z) : person_name n = person_name m -> n = m.
Proof.
  unfold person_name. simpl. intros [= H].
  apply (f_equal NilZero.int_of_string) in H.
  destruct (to_int_not_nil n) as [Hn1 Hn2].
  destruct (to_int_not_nil m) as [Hm1 Hm2].
  rewrite !NilZero.isi in H by assumption.
  injection H as H. apply DecimalZ.to_int_inj. exact H.
Qed.

Lemma person_names_NoDup (ids : list Z) :
  NoDup ids -> NoDup (map person_name ids).
Proof.
  induction 1 as [|k ids Hk _ IH]; simpl; constructor; [|exact IH].
  intros Hin. apply in_map_iff in Hin. destruct Hin as (m & Hm & Hin).
  apply person_name_inj in Hm. subst. contradiction.
Qed.


(** ** [clear_known_faces] (lines 623-640) *)

(** [result] is the answer to the confirmation box; the files of the
    directory are left out. *)
Definition clear_known_faces (result : bool) (a : App) : App * list action :=
  if result then
    (mkApp (running a) (cap a) (camera_error_count a) (saved_faces a)
       (SAVE_INTERVAL a) (MATCH_THRESHOLD a) [] [] 1
       (unknown_faces_buffer a) (last_process_time a) (frame_queue a),
     [Status "Cleared all known faces"])
  else (a, []).

(** Declined, [clear_known_faces] changes nothing. Confirmed, it empties the
    gallery and leaves the session, the saved faces and the buffered unknown
    faces as they are; every face is then labelled "Unknown", and over any
    run of the loop that follows the identities enrolled are named Person_1,
    Person_2, ... in this order. *)
Theorem clear_known_faces_restarts_numbering (a : App) :
  clear_known_faces false a = (a, []) /\
  (let a0 := fst (clear_known_faces true a) in
   same_camera a a0 /\
   saved_faces a0 = saved_faces a /\
   unknown_faces_buffer a0 = unknown_faces_buffer a /\
   (forall d, recognise a0 d = Some Unknown) /\
   forall evs a' out,
     detection_loop evs a0 = (a', out) ->
     known_face_names a'
     = map person_name (new_ids 1 (length (known_faces a')))).
Proof.
  split; [reflexivity|]. simpl. splits; auto.
  - unfold same_camera. simpl. auto.
  - intros d. unfold recognise. simpl. rewrite andb_false_r. reflexivity.
  - intros evs a' out Hloop. apply detection_loop_enrolled in Hloop.
    destruct Hloop as [t (Hf & Hn & _)]. simpl in Hf, Hn.
    rewrite Hf, Hn. reflexivity.
Qed.

(** ** [load_known_faces] (lines 537-566) *)

Section Loading.

(** Python's [int] on a string; [None] when it raises [ValueError]. *)
Variable py_int : string -> option Z.

(** [s.split("_")] *)
Fixpoint split_underscore (s : string) : list string :=
  match s with
  | EmptyString => [EmptyString]
  | String c rest =>
      if Ascii.eqb c "_"%char then EmptyString :: split_underscore rest
      else
        match split_underscore rest with
        | field :: fields => String c field :: fields
        | [] => [String c EmptyString]
        end
  end.

(** Lines 557-559: the [person_id] read from a name; [None] when the name
    does not start with "Person_" or the [try] block raises. *)
Definition person_id_of (name : string) : option Z :=
  if String.prefix "Person_" name then
    match nth_error (split_underscore name) 1 with
    | Some field => py_int field
    | None => None
    end
  else None.

(** Lines 556-563 for one name. *)
Definition next_id_step (next : Z) (name : string) : Z :=
  match person_id_of name with
  | Some person_id => if next <=? person_id then person_id + 1 else next
  | None => next
  end.

(** Lines 549-553: the faces found in one image are all stored under the
    name of the image. *)
Definition load_image (a : App) (image : string * list img) : App :=
  fold_left
    (fun a0 face_roi =>
       mkApp (running a0) (cap a0) (camera_error_count a0) (saved_faces a0)
         (SAVE_INTERVAL a0) (MATCH_THRESHOLD a0)
         (known_faces a0 ++ [resize80 face_roi])
         (known_face_names a0 ++ [fst image])
         (next_person_id a0) (unknown_faces_buffer a0) (last_process_time a0)
         (frame_queue a0))
    (snd image) a.

(** [images]: for each image file of the directory, in the order of
    [os.listdir], its name without extension and the faces the cascade finds
    in it; every file is taken to open. *)
Definition load_known_faces (images : list (string * list img)) (a : App)
    : App :=
  let a1 := fold_left load_image images a in
  mkApp (running a1) (cap a1) (camera_error_count a1) (saved_faces a1)
    (SAVE_INTERVAL a1) (MATCH_THRESHOLD a1) (known_faces a1)
    (known_face_names a1)
    (fold_left next_id_step (known_face_names a1) (next_person_id a1))
    (unknown_faces_buffer a1) (last_process_time a1) (frame_queue a1).

Lemma next_id_step_mono (next : Z) (name : string) :
  next <= next_id_step next name.
Proof.
  unfold next_id_step. destruct (person_id_of name) as [k|]; [|lia].
  destruct (next <=? k) eqn:H; [apply Z.leb_le in H|]; lia.
Qed.

Lemma next_id_fold_mono (names : list string) :
  forall next, next <= fold_left next_id_step names next.
Proof.
  induction names as [|name names IH]; intros next; simpl; [lia|].
  pose proof (next_id_step_mono next name). specialize (IH (next_id_step next name)).
  lia.
Qed.

Lemma next_id_fold_above (names : list string) :
  forall next name k,
    In name names -> person_id_of name = Some k ->
    k < fold_left next_id_step names next.
Proof.
  induction names as [|name0 names IH]; intros next name k; [intros []|].
  simpl. intros [->|Hin] Hid.
  - pose proof (next_id_fold_mono names (next_id_step next name)) as Hmono.
    assert (Hstep : k < next_id_step next name).
    { unfold next_id_step. rewrite Hid.
      destruct (next <=? k) eqn:H; [|apply Z.leb_gt in H]; lia. }
    lia.
  - eapply IH; eassumption.
Qed.

(** The templates and the names that loading [images] appends: for each
    image in order, one template for each face found in it, normalised to
    80x80, and as many copies of the name of the image. *)
Definition loaded_templates (images : list (string * list img)) : list img :=
  flat_map (fun image => map resize80 (snd image)) images.

Definition loaded_names (images : list (string * list img)) : list string :=
  flat_map (fun image => repeat (fst image) (length (snd image))) images.

Lemma loaded_names_length (images : list (string * list img)) :
  length (loaded_names images) = length (loaded_templates images).
Proof.
  induction images as [|image images IH]; simpl; [reflexivity|].
  rewrite !length_app, repeat_length, length_map, IH. reflexivity.
Qed.

Lemma next_id_fold_exact (names : list string) :
  forall next,
    fold_left next_id_step names next = next \/
    exists name k,
      In name names /\ person_id_of name = Some k /\
      fold_left next_id_step names next = k + 1.
Proof.
  induction names as [|name names IH]; intros next; simpl; [left; reflexivity|].
  destruct (IH (next_id_step next name)) as [Heq | (name' & k & Hin & Hid & Heq)].
  - rewrite Heq. unfold next_id_step.
    destruct (person_id_of name) as [k|] eqn:Hid; [|left; reflexivity].
    destruct (next <=? k); [|left; reflexivity].
    right. exists name, k. auto.
  - right. exists name', k. auto.
Qed.

Lemma load_image_gallery (image : string * list img) (a : App) :
  known_faces (load_image a image) = known_faces a ++ map resize80 (snd image) /\
  known_face_names (load_image a image)
  = known_face_names a ++ repeat (fst image) (length (snd image)) /\
  next_person_id (load_image a image) = next_person_id a /\
  unknown_faces_buffer (load_image a image) = unknown_faces_buffer a /\
  saved_faces (load_image a image) = saved_faces a /\
  same_camera a (load_image a image).
Proof.
  unfold load_image. destruct image as [name rois]. simpl. revert a.
  induction rois as [|roi rois IH]; intros a; simpl.
  - rewrite !app_nil_r. splits; auto. apply same_camera_refl.
  - destruct (IH (mkApp (running a) (cap a) (camera_error_count a)
                   (saved_faces a) (SAVE_INTERVAL a) (MATCH_THRESHOLD a)
                   (known_faces a ++ [resize80 roi])
                   (known_face_names a ++ [name]) (next_person_id a)
                   (unknown_faces_buffer a) (last_process_time a)
                   (frame_queue a)))
      as (Hf & Hn & Hi & Hb & Hs & Hc).
    simpl in Hf, Hn, Hi, Hb, Hs. rewrite Hf, Hn, <- !app_assoc. simpl.
    splits; auto.
Qed.

Lemma load_images_gallery (images : list (string * list img)) :
  forall a,
    known_faces (fold_left load_image images a)
    = known_faces a ++ loaded_templates images /\
    known_face_names (fold_left load_image images a)
    = known_face_names a ++ loaded_names images /\
    next_person_id (fold_left load_image images a) = next_person_id a /\
    unknown_faces_buffer (fold_left load_image images a)
    = unknown_faces_buffer a /\
    saved_faces (fold_left load_image images a) = saved_faces a /\
    same_camera a (fold_left load_image images a).
Proof.
  induction images as [|image images IH]; intros a; simpl.
  - rewrite !app_nil_r. splits; auto. apply same_camera_refl.
  - destruct (load_image_gallery image a) as (Hf1 & Hn1 & Hi1 & Hb1 & Hs1 & Hc1).
    destruct (IH (load_image a image)) as (Hf2 & Hn2 & Hi2 & Hb2 & Hs2 & Hc2).
    rewrite Hf2, Hf1, Hn2, Hn1, Hi2, Hi1, Hb2, Hb1, Hs2, Hs1, <- !app_assoc.
    splits; auto.
    unfold same_camera in *. intuition congruence.
Qed.

(** Loading appends to the gallery, in the order of the image files, one
    template for each face found, normalised to 80x80, under the name of its
    image file, and keeps what the gallery held; a gallery with as many names
    as templates stays so. [next_person_id] is left where it was or put just
    above the number read from a "Person_" name of the gallery, and ends
    above the number read from every such name. The session, the saved faces
    and the buffered unknown faces are not touched. *)
Theorem load_known_faces_next_id (images : list (string * list img)) (a : App) :
  let a' := load_known_faces images a in
  known_faces a' = known_faces a ++ loaded_templates images /\
  known_face_names a' = known_face_names a ++ loaded_names images /\
  (length (known_face_names a) = length (known_faces a) ->
   length (known_face_names a') = length (known_faces a')) /\
  next_person_id a <= next_person_id a' /\
  (forall name k,
      In name (known_face_names a') -> person_id_of name = Some k ->
      k < next_person_id a') /\
  (next_person_id a' = next_person_id a \/
   exists name k,
     In name (known_face_names a') /\ person_id_of name = Some k /\
     next_person_id a' = k + 1) /\
  unknown_faces_buffer a' = unknown_faces_buffer a /\
  saved_faces a' = saved_faces a /\
  same_camera a a'.
Proof.
  unfold load_known_faces. simpl.
  destruct (load_images_gallery images a) as (Hf & Hn & Hi & Hb & Hs & Hc).
  splits; auto.
  - intros Hlen. rewrite Hf, Hn, !length_app, loaded_names_length, Hlen.
    reflexivity.
  - rewrite <- Hi at 1. apply next_id_fold_mono.
  - intros name k. apply next_id_fold_above.
  - rewrite Hi. apply next_id_fold_exact.
Qed.

(** *** When [int] reads back the decimal numbers [person_name] prints *)

Hypothesis py_int_decimal :
  forall k : Z, py_int (NilZero.string_of_int (Z.to_int k)) = Some k.

Lemma split_underscore_uint (d : Decimal.uint) :
  split_underscore (NilEmpty.string_of_uint d) = [NilEmpty.string_of_uint d].
Proof. induction d; simpl; rewrite ?IHd; reflexivity. Qed.

Lemma split_underscore_int (d : Decimal.int) :
  split_underscore (NilZero.string_of_int d) = [NilZero.string_of_int d].
Proof.
  destruct d as [d|d]; simpl.
  - destruct d; try reflexivity; apply split_underscore_uint.
  - replace (split_underscore (NilZero.string_of_uint d))
      with [NilZero.string_of_uint d]; [reflexivity|].
    destruct d; try reflexivity; symmetry; apply split_underscore_uint.
Qed.

Lemma person_id_of_person_name (k : Z) : person_id_of (person_name k) = Some k.
Proof.
  unfold person_id_of, person_name.
  assert (Hprefix :
    forall s, String.prefix "Person_" ("Person_" ++ s)%string = true)
    by (intros s; simpl; destruct s; reflexivity).
  rewrite Hprefix. simpl. rewrite split_underscore_int. simpl.
  apply py_int_decimal.
Qed.

Lemma start_detection_gallery (opened : bool) (a : App) :
  same_gallery a (fst (start_detection opened a)).
Proof.
  unfold start_detection, stop_detection, same_gallery.
  destruct (running a); simpl; [auto|].
  destruct opened; simpl; auto.
Qed.

(** Loading gives the loop a clean start for its numbering: every name
    Person_k of the loaded gallery has its number below [next_person_id], so
    over any run of a session started after loading, the names of the new
    identities are pairwise distinct and none of them is a name the gallery
    already held. *)
Theorem names_after_load_fresh (images : list (string * list img))
    (opened : bool) (evs : list event) (a a' : App) (out : list action) :
  let loaded := load_known_faces images a in
  detection_loop evs (fst (start_detection opened loaded)) = (a', out) ->
  (forall k,
      In (person_name k) (known_face_names loaded) ->
      k < next_person_id loaded) /\
  exists new_names,
    known_face_names a' = known_face_names loaded ++ new_names /\
    NoDup new_names /\
    forall n, In n new_names -> ~ In n (known_face_names loaded).
Proof.
  intros loaded Hloop.
  assert (Hbelow :
    forall k,
      In (person_name k) (known_face_names loaded) ->
      k < next_person_id loaded).
  { intros k Hin. unfold loaded, load_known_faces in *. simpl in *.
    eapply next_id_fold_above; [exact Hin | apply person_id_of_person_name]. }
  split; [exact Hbelow|].
  apply detection_loop_enrolled in Hloop. destruct Hloop as [t (_ & Hn & _)].
  destruct (start_detection_gallery opened loaded) as (_ & Hn0 & Hi0).
  rewrite Hn0, Hi0 in Hn.
  eexists. split; [exact Hn|]. split.
  - apply person_names_NoDup, new_ids_NoDup.
  - intros n Hin Hold. apply in_map_iff in Hin. destruct Hin as (k & <- & Hk).
    apply new_ids_ge in Hk. apply Hbelow in Hold. lia.
Qed.

End Loading.

(** ** Grouping the buffered faces *)

(** A list of groups none of which is empty, in each of which every later
    member scores above 0.65 against the first. *)
Definition well_grouped (groups : list (list img)) : Prop :=
  Forall
    (fun group =>
       match group with
       | [] => False
       | g0 :: rest => Forall (fun g => (CLUSTER_THRESHOLD < ncc g g0)%Q) rest
       end)
    groups.

(** The first members of the groups: a later one scores at most 0.65 against
    every earlier one. *)
Definition heads_apart (groups : list (list img)) : Prop :=
  ForallOrdPairs
    (fun group1 group2 =>
       match group1, group2 with
       | g1 :: _, g2 :: _ => (ncc g2 g1 <= CLUSTER_THRESHOLD)%Q
       | _, _ => True
       end)
    groups.

Lemma join_group_some (g : img) (groups : list (list img)) :
  forall groups',
    join_group g groups = Some groups' ->
    well_grouped groups -> heads_apart groups ->
    well_grouped groups' /\ heads_apart groups' /\
    Permutation (concat groups') (g :: concat groups) /\
    map (@hd_error img) groups' = map (@hd_error img) groups.
Proof.
  induction groups as [|group rest IH]; intros groups'; cbn [join_group];
    [discriminate|].
  intros Hjoin Hwell Hapart.
  inversion Hwell as [|? ? Hgroup Hrest]; subst.
  inversion Hapart as [|? ? Hhead Hrest_apart]; subst.
  destruct group as [|g0 members]; [contradiction|].
  destruct (Qltb CLUSTER_THRESHOLD (ncc g g0)) eqn:Hcmp.
  - injection Hjoin as <-. apply Qltb_true in Hcmp. splits.
    + constructor; [|exact Hrest]. simpl.
      apply Forall_app. split; [exact Hgroup | repeat constructor; exact Hcmp].
    + constructor; [|exact Hrest_apart]. exact Hhead.
    + simpl. rewrite <- app_assoc. simpl.
      apply Permutation_sym.
      apply (Permutation_middle (g0 :: members) (concat rest) g).
    + reflexivity.
  - destruct (join_group g rest) as [rest'|] eqn:Hrec; [|discriminate].
    injection Hjoin as <-.
    destruct (IH rest' eq_refl Hrest Hrest_apart) as (Hw & Ha & Hp & Hh).
    splits.
    + constructor; assumption.
    + constructor; [|exact Ha].
      clear - Hhead Hh. revert rest' Hh.
      induction Hhead as [|grp rest Hgrp _ IHh]; intros rest' Hh;
        destruct rest' as [|grp' rest']; try discriminate; constructor.
      * injection Hh as Hhd Htl.
        destruct grp' as [|g' m']; [auto|].
        destruct grp as [|g2 m2]; [discriminate|].
        injection Hhd as ->. exact Hgrp.
      * apply IHh. injection Hh as _ Htl. exact Htl.
    + simpl. rewrite Hp. apply Permutation_sym.
      apply (Permutation_middle (g0 :: members) (concat rest) g).
    + simpl. rewrite Hh. reflexivity.
Qed.

Lemma join_group_none (g : img) (groups : list (list img)) :
  join_group g groups = None ->
  Forall
    (fun group =>
       match group with
       | g0 :: _ => (ncc g g0 <= CLUSTER_THRESHOLD)%Q
       | [] => True
       end)
    groups.
Proof.
  induction groups as [|group rest IH]; cbn [join_group]; [constructor|].
  destruct group as [|g0 members].
  - destruct (join_group g rest); [discriminate|]. intros _. constructor; auto.
  - destruct (Qltb CLUSTER_THRESHOLD (ncc g g0)) eqn:Hcmp; [discriminate|].
    destruct (join_group g rest); [discriminate|]. intros _.
    apply Qltb_false in Hcmp. constructor; auto.
Qed.

Lemma heads_apart_snoc (groups : list (list img)) (g : img) :
  heads_apart groups ->
  Forall
    (fun group =>
       match group with
       | g0 :: _ => (ncc g g0 <= CLUSTER_THRESHOLD)%Q
       | [] => True
       end)
    groups ->
  heads_apart (groups ++ [[g]]).
Proof.
  intros Hapart Hnone. apply ForallOrdPairs_snoc; [exact Hapart|].
  revert Hnone. apply Forall_impl. intros [|g0 m]; auto.
Qed.

(** The body of the loop at lines 1072-1087. *)
Definition group_step (groups : list (list img)) (face_img : img)
    : list (list img) :=
  match join_group (normalised face_img) groups with
  | Some groups' => groups'
  | None => groups ++ [[normalised face_img]]
  end.

Lemma group_faces_fold (buffer : list img) :
  group_faces buffer = fold_left group_step buffer [].
Proof. reflexivity. Qed.

Lemma group_fold_clusters (buffer : list img) :
  forall groups,
    well_grouped groups -> heads_apart groups ->
    well_grouped (fold_left group_step buffer groups) /\
    heads_apart (fold_left group_step buffer groups) /\
    Permutation (concat (fold_left group_step buffer groups))
      (concat groups ++ map normalised buffer).
Proof.
  induction buffer as [|face_img buffer IH]; intros groups Hwell Hapart;
    cbn [fold_left map].
  - rewrite app_nil_r. auto.
  - unfold group_step at 2 4 6.
    destruct (join_group (normalised face_img) groups) as [groups'|] eqn:Hjoin.
    + destruct (join_group_some _ _ _ Hjoin Hwell Hapart) as (Hw & Ha & Hp & _).
      destruct (IH groups' Hw Ha) as (Hw2 & Ha2 & Hp2).
      splits; auto. rewrite Hp2, Hp.
      apply (Permutation_middle (concat groups) (map normalised buffer)
               (normalised face_img)).
    + apply join_group_none in Hjoin.
      assert (Hw : well_grouped (groups ++ [[normalised face_img]])).
      { apply Forall_app. split; [exact Hwell|]. repeat constructor. }
      pose proof (heads_apart_snoc _ _ Hapart Hjoin) as Ha.
      destruct (IH _ Hw Ha) as (Hw2 & Ha2 & Hp2).
      splits; auto. rewrite Hp2, concat_app. simpl.
      rewrite <- app_assoc. reflexivity.
Qed.

(** The groups made from a buffer hold every normalised crop of the buffer
    exactly once; no group is empty; in a group every later member scores
    above 0.65 against the first; and the first member of a group scores at
    most 0.65 against the first member of every earlier group. *)
Theorem group_faces_clusters (buffer : list img) :
  Permutation (concat (group_faces buffer)) (map normalised buffer) /\
  well_grouped (group_faces buffer) /\
  heads_apart (group_faces buffer).
Proof.
  destruct (group_fold_clusters buffer []) as (Hw & Ha & Hp);
    [constructor | constructor |].
  rewrite group_faces_fold. splits; auto.
Qed.

(** ** An enrolment pass on any buffer *)

(** The template [add_new_person] makes of the [best_face] of a group. *)
Definition template_of (best_face : img) : img :=
  resize80 (bgr2gray (gray2bgr best_face)).

(** The templates of the groups of at least two faces, each made from the
    first member of its group. *)
Definition new_templates (groups : list (list img)) : list img :=
  flat_map
    (fun group =>
       match group with
       | g0 :: _ :: _ => [template_of g0]
       | _ => []
       end)
    groups.

Lemma new_templates_bound (groups : list (list img)) :
  (2 * length (new_templates groups) <= length (concat groups))%nat.
Proof.
  induction groups as [|group rest IH]; simpl; [lia|].
  rewrite !length_app. destruct group as [|g0 [|g1 members]]; simpl in *; lia.
Qed.

Section EnrolmentPass.

Hypothesis shape_resize80 : forall i : img, shape (resize80 i) = (80, 80).

Lemma enrol_groups_templates (groups : list (list img)) :
  forall (a a' : App) (out : list action) (raised : bool),
    Forall (Forall (fun g => shape g = (80, 80))) groups ->
    enrol_groups groups a = (a', out, raised) ->
    raised = false /\ enrolled a a' (new_templates groups).
Proof.
  induction groups as [|group rest IH]; intros a a' out raised Hshape;
    cbn [enrol_groups].
  - intros [= <- <- <-]. split; [reflexivity|].
    apply same_gallery_enrolled, same_gallery_refl.
  - inversion Hshape as [|? ? Hgroup Hrest]; subst.
    destruct group as [|g0 [|g1 members]]; cbn [length Nat.leb new_templates flat_map app];
      try (apply IH; exact Hrest).
    inversion Hgroup as [|? ? Hg0 Hmembers]; subst.
    rewrite (best_face_of_first g0 (g1 :: members) Hg0 Hmembers).
    pose proof (add_new_person_enrolled (gray2bgr g0) a) as Hadd.
    destruct (add_new_person (gray2bgr g0) a) as [a1 out1].
    destruct (enrol_groups rest a1) as [[a2 out2] r2] eqn:Hrec.
    intros [= <- <- <-]. destruct (IH _ _ _ _ Hrest Hrec) as [-> Henr].
    split; [reflexivity|].
    exact (enrolled_trans _ _ _ _ _ Hadd Henr).
Qed.

(** With at least [BUFFER_SIZE] crops in the buffer, whatever they show, the
    enrolment pass raises nothing, adds one identity for each group of two
    faces or more, its template made from the first member of the group, and
    empties the buffer: the faces of the groups of one are dropped. It adds
    at most one identity for every two buffered crops, and leaves the
    session, the saved faces and the sliders alone. *)
Theorem enrolment_pass_general (a a' : App) (out : list action)
    (raised : bool) :
  (BUFFER_SIZE <= length (unknown_faces_buffer a))%nat ->
  process_unknown_faces a = (a', out, raised) ->
  let templates := new_templates (group_faces (unknown_faces_buffer a)) in
  raised = false /\
  unknown_faces_buffer a' = [] /\
  known_faces a' = known_faces a ++ templates /\
  known_face_names a' =
    known_face_names a
    ++ map person_name (new_ids (next_person_id a) (length templates)) /\
  next_person_id a' = next_person_id a + Z.of_nat (length templates) /\
  (2 * length templates <= length (unknown_faces_buffer a))%nat /\
  same_session a a'.
Proof.
  intros Hlen Hrun templates.
  pose proof (process_unknown_faces_session _ _ _ _ Hrun) as [Hsession _].
  revert Hrun. unfold process_unknown_faces.
  apply Nat.ltb_ge in Hlen. rewrite Hlen.
  destruct (group_fold_clusters (unknown_faces_buffer a) [])
    as (_ & _ & Hperm); [constructor | constructor |].
  rewrite <- group_faces_fold in Hperm. simpl in Hperm.
  assert (Hshape :
    Forall (Forall (fun g => shape g = (80, 80)))
      (group_faces (unknown_faces_buffer a))).
  { apply Forall_forall. intros group Hgroup. apply Forall_forall.
    intros g Hg.
    assert (Hin : In g (concat (group_faces (unknown_faces_buffer a))))
      by (apply in_concat; eauto).
    apply (Permutation_in _ Hperm) in Hin. apply in_map_iff in Hin.
    destruct Hin as (x & <- & _). apply shape_resize80. }
  destruct (enrol_groups _ a) as [[a1 out1] r1] eqn:Henrol.
  destruct (enrol_groups_templates _ _ _ _ _ Hshape Henrol)
    as [-> (Hf & Hn & Hi)].
  intros [= <- <- <-]. simpl. fold templates in Hf, Hn, Hi.
  splits; auto.
  pose proof (new_templates_bound (group_faces (unknown_faces_buffer a))) as Hb.
  rewrite (Permutation_length Hperm), length_map in Hb. exact Hb.
Qed.

End EnrolmentPass.

(** ** Attendance *)

(** The names passed to [log_attendance]. *)
Definition logged_of (act : action) : list string :=
  match act with
  | LogAttendance name => [name]
  | _ => []
  end.

Definition logged (out : list action) : list string := flat_map logged_of out.

Lemma logged_app (l1 l2 : list action) : logged (l1 ++ l2) = logged l1 ++ logged l2.
Proof. apply flat_map_app. Qed.

Lemma logged_cons (act : action) (l : list action) :
  logged (act :: l) = logged_of act ++ logged l.
Proof. reflexivity. Qed.

Lemma only_status_logged (out : list action) : only_status out -> logged out = [].
Proof.
  induction 1 as [|act out (msg & -> & _) _ IH]; simpl; [reflexivity|exact IH].
Qed.

Definition parallel (a : App) : Prop :=
  length (known_face_names a) = length (known_faces a).

(** Every logged name is a name of the gallery other than "Unknown". *)
Definition logs_in (out : list action) (names : list string) : Prop :=
  Forall (fun n => n <> Unknown /\ In n names) (logged out).

Lemma enrolled_parallel (a a' : App) (t : list img) :
  enrolled a a' t -> parallel a -> parallel a'.
Proof.
  unfold parallel. intros (Hf & Hn & _) Hlen.
  rewrite Hf, Hn, !length_app, length_map, new_ids_length, Hlen. reflexivity.
Qed.

Lemma logs_in_grow (out : list action) (names more : list string) :
  logs_in out names -> logs_in out (names ++ more).
Proof.
  unfold logs_in. apply Forall_impl. intros n [Hne Hin]. split; [exact Hne|].
  apply in_app_iff. left. exact Hin.
Qed.

Lemma logs_in_enrolled (out : list action) (a a' : App) (t : list img) :
  enrolled a a' t -> logs_in out (known_face_names a) ->
  logs_in out (known_face_names a').
Proof. intros (_ & Hn & _) Hlogs. rewrite Hn. apply logs_in_grow. exact Hlogs. Qed.

Lemma process_face_logs (now : Q) (d : detection) (a a' : App)
    (out : list action) :
  parallel a ->
  process_face now d a = Some (a', out) ->
  logs_in out (known_face_names a).
Proof.
  intros Hpar. destruct (recognise_label a d Hpar) as (name & Hname & Hin).
  unfold process_face. rewrite Hname. destruct (det_cv_error d); [discriminate|].
  destruct (save_face_of _ _ _ _ _); simpl.
  - destruct (String.eqb name Unknown) eqn:Heq; intros [= <- <-];
      unfold logs_in; simpl; [constructor|].
    apply String.eqb_neq in Heq. repeat constructor; [exact Heq|].
    destruct Hin as [->|Hin]; [contradiction | exact Hin].
  - intros [= <- <-]. constructor.
Qed.

Lemma process_faces_logs (now : Q) (ds : list detection) :
  forall (a a' : App) (out : list action) (raised : bool),
    parallel a ->
    process_faces now ds a = (a', out, raised) ->
    logs_in out (known_face_names a).
Proof.
  induction ds as [|d rest IH]; intros a a' out raised Hpar;
    cbn [process_faces].
  - intros [= <- <- <-]. constructor.
  - destruct (process_face now d a) as [[a1 out1]|] eqn:Hface.
    + destruct (process_faces now rest a1) as [[a2 out2] r2] eqn:Hrest.
      intros [= <- <- <-].
      pose proof (process_face_logs _ _ _ _ _ Hpar Hface) as H1.
      apply process_face_gallery in Hface. destruct Hface as (Hf & Hn & _).
      assert (Hpar1 : parallel a1) by (unfold parallel in *; congruence).
      pose proof (IH _ _ _ _ Hpar1 Hrest) as H2. rewrite Hn in H2.
      unfold logs_in. rewrite logged_app. apply Forall_app. split; assumption.
    + intros [= <- <- <-]. constructor.
Qed.

Lemma process_frame_logs (f : frame_in) (a a' : App) (out : list action)
    (raised : bool) :
  parallel a ->
  process_frame f a = (a', out, raised) ->
  logs_in out (known_face_names a').
Proof.
  intros Hpar. unfold process_frame. set (a0 := set_camera_error_count 0 a).
  assert (Hpar0 : parallel a0) by exact Hpar.
  destruct (frame_cv_error f); [intros [= <- <- <-]; constructor|].
  assert (Hpre :
    forall a1 out1 r1,
      (if Qltb PROCESS_INTERVAL (current_time f - last_process_time a0)
       then let '(a_, out_, raised_) := process_unknown_faces a0 in
            if raised_ then (a_, out_, true)
            else (set_last_process_time (current_time f) a_, out_, false)
       else (a0, [], false)) = (a1, out1, r1) ->
      parallel a1 /\ logged out1 = []).
  { intros a1 out1 r1. destruct (Qltb PROCESS_INTERVAL _).
    - destruct (process_unknown_faces a0) as [[a_ out_] r_] eqn:Hpuf.
      pose proof (process_unknown_faces_session _ _ _ _ Hpuf) as [_ Ho].
      apply only_status_logged in Ho.
      apply process_unknown_faces_enrolled in Hpuf. destruct Hpuf as [t Ht].
      pose proof (enrolled_parallel _ _ _ Ht Hpar0) as Hp.
      destruct r_; intros [= <- <- <-]; split; auto.
    - intros [= <- <- <-]. auto. }
  destruct (if Qltb PROCESS_INTERVAL _ then _ else _) as [[a1 out1] r1].
  destruct (Hpre _ _ _ eq_refl) as [Hpar1 Hlog1]. clear Hpre.
  destruct r1.
  { intros [= <- <- <-]. unfold logs_in. rewrite Hlog1. constructor. }
  destruct (process_faces (current_time f) (faces f) a1)
    as [[a2 out2] r2] eqn:Hfaces.
  pose proof (process_faces_logs _ _ _ _ _ _ Hpar1 Hfaces) as Hlogs.
  apply process_faces_gallery in Hfaces. destruct Hfaces as (_ & Hn & _).
  assert (Hall : logs_in (out1 ++ out2) (known_face_names a2)).
  { unfold logs_in. rewrite logged_app, Hlog1, Hn. exact Hlogs. }
  destruct r2; intros [= <- <- <-]; exact Hall.
Qed.

Lemma count_error_logged (msg : string) (a a' : App) (out : list action)
    (stopped : bool) :
  count_error msg a = (a', out, stopped) -> logged out = [].
Proof.
  unfold count_error, stop_detection. simpl.
  destruct (max_camera_errors <? camera_error_count a + 1);
    [destruct (cap a)|]; intros [= <- <- <-]; reflexivity.
Qed.

Lemma iteration_logs (ev : event) (a a' : App) (out : list action) :
  parallel a ->
  iteration ev a = (a', out) ->
  logs_in out (known_face_names a').
Proof.
  intros Hpar.
  assert (Hread :
    forall b b' out',
      parallel b ->
      read_and_process ev b = (b', out') ->
      logs_in out' (known_face_names b')).
  { intros b b' out' Hb. unfold read_and_process.
    destruct (ev_read ev) as [f|].
    - destruct (process_frame f b) as [[b1 out1] raised] eqn:Hframe.
      apply process_frame_logs in Hframe; [|exact Hb].
      destruct raised.
      + destruct (count_error _ b1) as [[b2 out2] stopped] eqn:Hcount.
        pose proof (count_error_logged _ _ _ _ _ Hcount) as Hlog2.
        apply count_error_gallery in Hcount. destruct Hcount as (_ & Hn & _).
        intros [= <- <-]. unfold logs_in in *.
        rewrite logged_cons, logged_app, logged_cons, Hlog2, Hn. simpl.
        rewrite app_nil_r. exact Hframe.
      + intros [= <- <-]. exact Hframe.
    - destruct (count_error _ b) as [[b1 out1] stopped] eqn:Hcount.
      pose proof (count_error_logged _ _ _ _ _ Hcount) as Hlog1.
      destruct stopped; intros [= <- <-]; unfold logs_in;
        rewrite logged_cons, ?logged_app, Hlog1; constructor. }
  unfold iteration. destruct (negb (isOpened (cap a))); [|apply Hread; exact Hpar].
  destruct (negb (ev_open ev)).
  - destruct (count_error _ _) as [[a2 out2] stopped] eqn:Hcount.
    apply count_error_logged in Hcount. intros [= <- <-].
    unfold logs_in. rewrite !logged_cons, Hcount. constructor.
  - destruct (read_and_process ev _) as [a2 out2] eqn:Hrp.
    apply Hread in Hrp; [|exact Hpar]. intros [= <- <-]. exact Hrp.
Qed.

(** Over any run of the loop from a gallery with as many names as templates,
    attendance is never logged under "Unknown", and every name it is logged
    under is a name of the gallery. *)
Theorem attendance_only_for_gallery_names (evs : list event) :
  forall (a a' : App) (out : list action),
    length (known_face_names a) = length (known_faces a) ->
    detection_loop evs a = (a', out) ->
    Forall (fun n => n <> Unknown /\ In n (known_face_names a')) (logged out).
Proof.
  induction evs as [|ev rest IH]; intros a a' out Hpar; cbn [detection_loop].
  - intros [= <- <-]. constructor.
  - destruct (running a); [|intros [= <- <-]; constructor].
    destruct (iteration ev a) as [a1 out1] eqn:Hiter.
    destruct (detection_loop rest a1) as [a2 out2] eqn:Hloop.
    intros [= <- <-].
    pose proof (iteration_logs _ _ _ _ Hpar Hiter) as H1.
    apply iteration_enrolled in Hiter. destruct Hiter as [t1 Ht1].
    pose proof (enrolled_parallel _ _ _ Ht1 Hpar) as Hpar1.
    pose proof (IH _ _ _ Hpar1 Hloop) as H2.
    apply detection_loop_enrolled in Hloop. destruct Hloop as [t2 Ht2].
    rewrite logged_app. apply Forall_app. split; [|exact H2].
    exact (logs_in_enrolled _ _ _ _ Ht2 H1).
Qed.

(** ** The two threads and the display queue *)

(** One turn on the display queue: the worker handles a frame it has read,
    or the window polls ([update_gui]); the test and the append of lines
    1010-1012 are taken as one step. *)
Inductive turn : Type :=
| Worker (f : frame_in)
| Gui.

(** The turns in order, with the frames put on the video label. *)
Fixpoint take_turns (turns : list turn) (a : App) : App * list img :=
  match turns with
  | [] => (a, [])
  | Worker f :: rest =>
      let '(a1, _, _) := process_frame f a in
      take_turns rest a1
  | Gui :: rest =>
      let '(a1, shown) := update_gui a in
      let '(a2, more) := take_turns rest a1 in
      (a2, match shown with Some x => x :: more | None => more end)
  end.

(** The frames the worker produced, in order. *)
Definition produced (turns : list turn) : list img :=
  flat_map
    (fun t => match t with Worker f => [frame_rgb f] | Gui => [] end)
    turns.

(** [l1] is [l2] with some elements left out. *)
Inductive subseq {A : Type} : list A -> list A -> Prop :=
| subseq_nil : subseq [] []
| subseq_skip (x : A) (l1 l2 : list A) : subseq l1 l2 -> subseq l1 (x :: l2)
| subseq_take (x : A) (l1 l2 : list A) : subseq l1 l2 -> subseq (x :: l1) (x :: l2).

(** However the worker and the window take turns, the frames shown followed
    by the frames still queued are the frames queued at the start followed by
    some of the frames produced, in the order of production: frames are shown
    oldest first, none twice, and a produced frame that is neither shown nor
    queued was dropped on arrival. The queue never exceeds its 5 places. *)
Theorem frames_shown_in_order (turns : list turn) :
  forall (a a' : App) (shown : list img),
    take_turns turns a = (a', shown) ->
    (exists kept,
        subseq kept (produced turns) /\
        shown ++ frame_queue a' = frame_queue a ++ kept) /\
    ((length (frame_queue a) <= frame_queue_maxlen)%nat ->
     (length (frame_queue a') <= frame_queue_maxlen)%nat).
Proof.
  induction turns as [|t rest IH]; intros a a' shown; cbn [take_turns].
  - intros [= <- <-]. split; [|auto]. exists []. split; [constructor|].
    simpl. rewrite app_nil_r. reflexivity.
  - destruct t as [f|].
    + destruct (process_frame f a) as [[a1 out1] raised] eqn:Hframe.
      intros Hrest. destruct (IH _ _ _ Hrest) as [(kept & Hsub & Heq) Hlen].
      destruct (process_frame_effect _ _ _ _ _ Hframe)
        as (_ & _ & _ & _ & _ & Hq & _).
      assert (Hcases :
        (frame_queue a1 = frame_queue a /\
         (length (frame_queue a1) <= length (frame_queue a))%nat) \/
        (frame_queue a1 = frame_queue a ++ [frame_rgb f] /\
         (length (frame_queue a) < frame_queue_maxlen)%nat)).
      { rewrite Hq. destruct raised; [left; auto|]. unfold enqueue_frame.
        destruct (length (frame_queue a) <? frame_queue_maxlen)%nat eqn:Hroom;
          [right | left]; auto.
        apply Nat.ltb_lt in Hroom. auto. }
      cbn [produced flat_map app]. fold (produced rest).
      destruct Hcases as [[Hsame Hle] | [Hadd Hroom]]; split.
      * exists kept. split; [constructor; exact Hsub|]. rewrite Heq, Hsame.
        reflexivity.
      * intros Hbound. apply Hlen. lia.
      * exists (frame_rgb f :: kept). split; [constructor; exact Hsub|].
        rewrite Heq, Hadd, <- app_assoc. reflexivity.
      * intros Hbound. apply Hlen. rewrite Hadd, length_app. simpl. lia.
    + unfold update_gui. destruct (frame_queue a) as [|x q] eqn:Hq;
        cbn [poll_frame].
      * destruct (take_turns rest _) as [a2 more] eqn:Hrest.
        intros [= <- <-]. destruct (IH _ _ _ Hrest) as [(kept & Hsub & Heq) Hlen].
        simpl in Heq, Hlen. split; [|exact Hlen].
        exists kept. split; [exact Hsub | exact Heq].
      * destruct (take_turns rest _) as [a2 more] eqn:Hrest.
        intros [= <- <-]. destruct (IH _ _ _ Hrest) as [(kept & Hsub & Heq) Hlen].
        simpl in Heq, Hlen. split.
        -- exists kept. split; [exact Hsub|]. simpl. rewrite Heq. reflexivity.
        -- intros Hbound. apply Hlen. simpl in Hbound. lia.
Qed.

(** ** [take_screenshot] (lines 452-470) *)

(** The frame written to the screenshot file, if any, and the message put on
    the status queue; the file name and the sound are left out. Nothing of
    the application changes. *)
Definition take_screenshot (a : App) : option img * list action :=
  match frame_queue a with
  | [] => (None, [])
  | f :: rest => (Some (last rest f), [Status "Screenshot saved"])
  end.

(** A screenshot saves the frame queued last and leaves it queued; with an
    empty queue it does nothing, which is the case once the window has
    polled as many times as there were frames. Right after the worker has
    handled a frame without exception, the screenshot is that frame if the
    queue had room for it, and otherwise the last frame the full queue
    held. *)
Theorem take_screenshot_newest_queued (a : App) :
  (forall q f, frame_queue a = q ++ [f] -> fst (take_screenshot a) = Some f) /\
  (frame_queue a = [] -> take_screenshot a = (None, [])) /\
  take_screenshot (fst (poll_times (length (frame_queue a)) a)) = (None, []) /\
  (forall f a' out,
      process_frame f a = (a', out, false) ->
      fst (take_screenshot a')
      = if (length (frame_queue a) <? frame_queue_maxlen)%nat
        then Some (frame_rgb f)
        else fst (take_screenshot a)).
Proof.
  assert (Hlast :
    forall b q f, frame_queue b = q ++ [f] -> fst (take_screenshot b) = Some f).
  { intros b q f Hq. unfold take_screenshot. rewrite Hq.
    destruct q as [|x q]; simpl; [reflexivity|].
    rewrite last_last. reflexivity. }
  splits.
  - exact (Hlast a).
  - intros Hq. unfold take_screenshot. rewrite Hq. reflexivity.
  - destruct (poll_times_fifo (length (frame_queue a)) a eq_refl) as [_ Hq].
    unfold take_screenshot. rewrite Hq. reflexivity.
  - intros f a' out Hframe.
    destruct (process_frame_effect _ _ _ _ _ Hframe)
      as (_ & _ & _ & _ & _ & Hq & _).
    unfold enqueue_frame in Hq.
    destruct (length (frame_queue a) <? frame_queue_maxlen)%nat.
    + exact (Hlast a' _ _ Hq).
    + unfold take_screenshot. rewrite Hq. reflexivity.
Qed.

(** ** [change_resolution] (lines 512-535) *)

(** The window state around the application: the resolution in use, one of
    the keys of [self.resolutions] offered by the radio buttons. *)
Record Window : Type := mkWindow {
  app : App;
  current_resolution : string
}.

(** [new_resolution] is the radio button chosen; [opened] tells whether the
    camera opens if the session is restarted. *)
Definition change_resolution (new_resolution : string) (opened : bool)
    (w : Window) : Window * list action :=
  if String.eqb new_resolution (current_resolution w) then (w, [])
  else
    let was_running := running (app w) in
    let '(a1, out1) :=
      if was_running then stop_detection (app w) else (app w, []) in
    let '(a2, out2) :=
      if was_running then start_detection opened a1 else (a1, []) in
    (mkWindow a2 new_resolution,
     out1 ++ out2 ++ [Status ("Resolution changed to " ++ new_resolution)]).

(** Choosing the resolution in use does nothing. Choosing another one while
    the session is stopped only records it, with no call on the camera.
    While the session runs, the capture is released before a new one is
    opened, the session runs again exactly when the camera opens, with no
    error counted, and nothing of the tracker is lost. *)
Theorem change_resolution_restarts (new_resolution : string) (opened : bool)
    (w : Window) :
  let changed := Status ("Resolution changed to " ++ new_resolution) in
  (new_resolution = current_resolution w ->
   change_resolution new_resolution opened w = (w, [])) /\
  (new_resolution <> current_resolution w ->
   let w' := fst (change_resolution new_resolution opened w) in
   let out := snd (change_resolution new_resolution opened w) in
   current_resolution w' = new_resolution /\
   same_tracker (app w) (app w') /\
   (running (app w) = false -> app w' = app w /\ out = [changed]) /\
   (running (app w) = true ->
    running (app w') = opened /\
    cap (app w') = (if opened then Some true else None) /\
    (opened = true -> camera_error_count (app w') = 0) /\
    out =
      match cap (app w) with Some _ => [CamRelease] | None => [] end
      ++ (if opened then [CamOpen true]
          else [CamOpen false; Status "Error: Could not open camera";
                CamRelease])
      ++ [changed])).
Proof.
  intros changed. split.
  - intros Heq. unfold change_resolution.
    apply String.eqb_eq in Heq. rewrite Heq. reflexivity.
  - intros Hne. apply String.eqb_neq in Hne.
    unfold change_resolution. rewrite Hne.
    destruct w as [a res]. destruct a as [r c n sf si mt kf kn ni ub lp fq].
    cbn [app running current_resolution].
    destruct r; unfold stop_detection, start_detection, same_tracker;
      destruct c as [o|]; destruct opened; simpl;
      repeat (splits; intros); try reflexivity; congruence.
Qed.

End Pipeline.

(** * The gallery window: [load_gallery_images] (lines 691-759) *)

(** [filename.endswith(suffix)] *)
Definition ends_with (suffix filename : string) : bool :=
  let n := String.length filename in
  let m := String.length suffix in
  (m <=? n)%nat && String.eqb (substring (n - m) m filename) suffix.

(** [filename.endswith(('.jpg', '.jpeg', '.png'))] *)
Definition is_image_file (filename : string) : bool :=
  ends_with ".jpg" filename || ends_with ".jpeg" filename
  || ends_with ".png" filename.

(** Lines 67-71 of [__init__]. *)
Definition SAVE_DIR : string := "detected_faces".
Definition KNOWN_FACES_DIR : string := "known_faces".
Definition SCREENSHOTS_DIR : string := "screenshots".

(** [os.path.join(directory, filename)] for a relative file name. *)
Definition path_join (directory filename : string) : string :=
  (directory ++ "/" ++ filename)%string.

(** Lines 697-712: the image files of the three directories, each with its
    category; [known], [detected] and [screenshots] are what [os.listdir]
    returns for the three directories. *)
Definition image_paths (known detected screenshots : list string)
    : list (string * string) :=
  map (fun f => (path_join KNOWN_FACES_DIR f, "Known"%string))
    (filter is_image_file known)
  ++ map (fun f => (path_join SAVE_DIR f, "Detected"%string))
       (filter is_image_file detected)
  ++ map (fun f => (path_join SCREENSHOTS_DIR f, "Screenshot"%string))
       (filter is_image_file screenshots).

Definition max_cols : nat := 4.

(** Lines 715-755: the images put on the grid, each with its row and column.
    [opens] tells whether [Image.open] and the resize succeed; when they
    raise, the image is skipped and the position is not advanced. *)
Fixpoint place_images (opens : string -> bool) (paths : list (string * string))
    (row col : nat) : list (string * string * (nat * nat)) :=
  match paths with
  | [] => []
  | (image_path, category) :: rest =>
      if opens image_path then
        (image_path, category, (row, col))
        :: (if (max_cols <=? col + 1)%nat
            then place_images opens rest (row + 1) 0
            else place_images opens rest row (col + 1))
      else place_images opens rest row col
  end.

Definition load_gallery_images (opens : string -> bool)
    (known detected screenshots : list string)
    : list (string * string * (nat * nat)) :=
  place_images opens (image_paths known detected screenshots) 0 0.

Lemma next_cell (i : nat) :
  (if (max_cols <=? i mod max_cols + 1)%nat
   then (i / max_cols + 1, 0)
   else (i / max_cols, i mod max_cols + 1))%nat
  = (S i / max_cols, S i mod max_cols)%nat.
Proof.
  unfold max_cols.
  pose proof (Nat.div_mod_eq i 4) as Hi.
  pose proof (Nat.mod_upper_bound i 4 ltac:(lia)) as Hr.
  destruct (4 <=? i mod 4 + 1)%nat eqn:Hwrap.
  - apply Nat.leb_le in Hwrap.
    assert (Hq : (S i / 4 = i / 4 + 1)%nat)
      by (symmetry; apply (Nat.div_unique (S i) 4 (i / 4 + 1) 0); lia).
    assert (Hm : (S i mod 4 = 0)%nat)
      by (symmetry; apply (Nat.mod_unique (S i) 4 (i / 4 + 1) 0); lia).
    rewrite Hq, Hm. reflexivity.
  - apply Nat.leb_gt in Hwrap.
    assert (Hq : (S i / 4 = i / 4)%nat)
      by (symmetry; apply (Nat.div_unique (S i) 4 (i / 4) (i mod 4 + 1)); lia).
    assert (Hm : (S i mod 4 = i mod 4 + 1)%nat)
      by (symmetry; apply (Nat.mod_unique (S i) 4 (i / 4) (i mod 4 + 1)); lia).
    rewrite Hq, Hm. reflexivity.
Qed.

Lemma place_images_from (opens : string -> bool)
    (paths : list (string * string)) :
  forall i : nat,
    let placed := place_images opens paths (i / max_cols) (i mod max_cols) in
    map fst placed = filter (fun p => opens (fst p)) paths /\
    map snd placed
    = map (fun k => (k / max_cols, k mod max_cols)%nat)
        (seq i (length (filter (fun p => opens (fst p)) paths))).
Proof.
  induction paths as [|[image_path category] rest IH]; intros i;
    cbn [place_images filter fst]; [split; reflexivity|].
  destruct (opens image_path).
  - pose proof (next_cell i) as Hnext. specialize (IH (S i)).
    cbn zeta in IH.
    destruct (max_cols <=? i mod max_cols + 1)%nat;
      pose proof (f_equal fst Hnext) as Hq;
      pose proof (f_equal snd Hnext) as Hm;
      cbn [fst snd] in Hq, Hm; rewrite <- Hq, <- Hm in IH;
      destruct IH as [IH1 IH2]; cbn [map fst snd length seq];
      rewrite IH1, IH2; split; reflexivity.
  - apply IH.
Qed.

(** The gallery fills its grid row by row, four images to a row: the images
    shown are the image files that open, in the order known, detected,
    screenshots, and the k-th of them (from 0) stands in row k / 4, column
    k mod 4. A file that fails to open leaves no gap. *)
Theorem gallery_grid_row_major (opens : string -> bool)
    (known detected screenshots : list string) :
  let shown :=
    filter (fun p => opens (fst p)) (image_paths known detected screenshots) in
  map fst (load_gallery_images opens known detected screenshots) = shown /\
  map snd (load_gallery_images opens known detected screenshots)
  = map (fun k => (k / max_cols, k mod max_cols)%nat) (seq 0 (length shown)).
Proof.
  exact (place_images_from opens (image_paths known detected screenshots) 0).
Qed.

Arguments mkApp {img}.
Arguments mkDetection {img}.
Arguments mkFrame {img}.
Arguments mkEvent {img}.
Arguments running {img}.
Arguments cap {img}.
Arguments camera_error_count {img}.
Arguments saved_faces {img}.
Arguments SAVE_INTERVAL {img}.
Arguments MATCH_THRESHOLD {img}.
Arguments known_faces {img}.
Arguments known_face_names {img}.
Arguments next_person_id {img}.
Arguments unknown_faces_buffer {img}.
Arguments last_process_time {img}.
Arguments frame_queue {img}.
Arguments set_frame_queue {img}.
Arguments update_match_threshold {img}.
Arguments start_detection {img}.
Arguments update_gui {img}.
Arguments poll_times {img}.
Arguments frame_times {img}.
Arguments camera_fails {img}.
Arguments center_x {img}.
Arguments center_y {img}.
Arguments ev_read {img}.
Arguments ev_open {img}.
Arguments ev_reopen {img}.

(** * A concrete camera and gallery

    Pictures carry their size, the person they show and the number of the
    shot; resizing keeps the person and the shot. Two pictures of the same
    person correlate at 0.80, two pictures of different persons at 0.10. *)

Module Toy.

Record pic : Type := mkPic { pic_h : Z; pic_w : Z; pic_who : Z; pic_shot : Z }.

Definition shape (p : pic) : Z * Z := (pic_h p, pic_w p).
Definition resize80 (p : pic) : pic := mkPic 80 80 (pic_who p) (pic_shot p).
Definition bgr2gray (p : pic) : pic := p.
Definition gray2bgr (p : pic) : pic := p.
Definition ncc (p q : pic) : Q :=
  if pic_who p =? pic_who q then 80 # 100 else 10 # 100.

Definition loop := detection_loop pic shape resize80 bgr2gray gray2bgr ncc.
Definition step := iteration pic shape resize80 bgr2gray gray2bgr ncc.
Definition frame_step := process_frame pic shape resize80 bgr2gray gray2bgr ncc.
Definition enrol :=
  process_unknown_faces pic shape resize80 bgr2gray gray2bgr ncc.
Definition face_step := process_face pic resize80 ncc.
Definition label := recognise pic resize80 ncc.

(** The application as [__init__] leaves it with an empty [known_faces]
    directory, the clock starting at 0. *)
Definition fresh : App pic :=
  mkApp false None 0 [] 3 (65 # 100) [] [] 1 [] 0 [].

(** After [start_detection] with a camera that opens. *)
Definition started : App pic := fst (start_detection true fresh).

(** A face of 120x120 at (100, 100), so centred at (160, 160), showing
    person [who]. *)
Definition face_at (x y who : Z) : detection pic :=
  mkDetection x y 120 120 (mkPic 90 90 who 0) (mkPic 120 120 who 0) false.

Definition frame_with (now : Q) (ds : list (detection pic)) : frame_in pic :=
  mkFrame now false ds (mkPic 480 640 0 0).

Definition good_read (f : frame_in pic) : event pic := mkEvent true (Some f) true.
(** A failed read followed by a re-open that succeeds, or fails. *)
Definition failed_read (reopen : bool) : event pic := mkEvent false None reopen.
Definition failed_open : event pic := mkEvent false None false.

(** The same face seen at times 1, 2 and 5. *)
Definition three_frames : list (event pic) :=
  [good_read (frame_with 1 [face_at 100 100 7]);
   good_read (frame_with 2 [face_at 100 100 7]);
   good_read (frame_with 5 [face_at 100 100 7])].

Example three_frames_accepted :
  accepted (snd (loop three_frames started)) = [(160, 160, 1%Q); (160, 160, 5%Q)].
Proof. reflexivity. Qed.

(** *** The duplicate gate *)

Definition first_sighting : App pic * list action :=
  (mkApp true (Some true) 0 [(160, 160, 1%Q)] 3 (65 # 100) [] [] 1
     [mkPic 120 120 7 0] 0 [],
   [FaceSeen 160 160 1 true Unknown]).

Definition three_frames_run : App pic * list action :=
  Eval vm_compute in loop three_frames started.

Lemma dedup_gate_invariant_witness :
  ((exists name rest,
       snd first_sighting = FaceSeen 160 160 1 true name :: rest) /\
   saved_faces (fst first_sighting) = [(160, 160, 1%Q)]) /\
  ForallOrdPairs (fun s1 s2 => ~ conflict 3 s1 s2)
    [(160, 160, 1%Q); (160, 160, 5%Q)].
Proof.
  split.
  - assert (Hface : face_step 1%Q (face_at 100 100 7) started
                    = Some (fst first_sighting, snd first_sighting))
      by (vm_compute; reflexivity).
    pose proof
      (proj1 (dedup_gate_invariant pic shape resize80 bgr2gray gray2bgr ncc)
         1%Q (face_at 100 100 7) started
         (fst first_sighting) (snd first_sighting) Hface) as H.
    destruct H as (Hout & _ & Hsaved).
    vm_compute in Hout, Hsaved. vm_compute.
    split; [exact Hout | exact Hsaved].
  - apply
      (proj2 (dedup_gate_invariant pic shape resize80 bgr2gray gray2bgr ncc)
         three_frames started (fst three_frames_run) (snd three_frames_run)).
    + reflexivity.
    + repeat constructor; unfold Qle; simpl; lia.
    + vm_compute. reflexivity.
Defined.

(** *** The identity matcher *)

Definition alice : pic := mkPic 80 80 7 0.

Definition with_alice : App pic :=
  mkApp true (Some true) 0 [] 3 (65 # 100) [alice] ["Alice"%string] 1 [] 0 [].

Lemma identity_matcher_threshold_witness :
  (exists i kf name,
      nth_error (known_faces with_alice) i = Some kf /\
      nth_error (known_face_names with_alice) i = Some name /\
      (forall kf', In kf' (known_faces with_alice) ->
                   (ncc (resize80 (mkPic 90 90 7 0)) kf'
                    <= ncc (resize80 (mkPic 90 90 7 0)) kf)%Q) /\
      (forall j kf', (j < i)%nat ->
                     nth_error (known_faces with_alice) j = Some kf' ->
                     (ncc (resize80 (mkPic 90 90 7 0)) kf'
                      < ncc (resize80 (mkPic 90 90 7 0)) kf)%Q) /\
      label with_alice (face_at 100 100 7) = Some name) /\
  (label (update_match_threshold (65 # 100) with_alice) (face_at 100 100 7)
   = Some "Alice"%string /\
   label (update_match_threshold (85 # 100) with_alice) (face_at 100 100 7)
   = Some Unknown).
Proof.
  split.
  - apply
      (proj1
         (proj1 (identity_matcher_threshold pic shape resize80 bgr2gray
                   gray2bgr ncc)
            with_alice (face_at 100 100 7)
            ltac:(vm_compute; discriminate) ltac:(vm_compute; discriminate)
            ltac:(discriminate) ltac:(reflexivity)
            ltac:(vm_compute; discriminate))).
    exists alice. split; [left; reflexivity | vm_compute; reflexivity].
  - apply
      (proj2 (identity_matcher_threshold pic shape resize80 bgr2gray
                gray2bgr ncc)
         with_alice (face_at 100 100 7) alice).
    + vm_compute. discriminate.
    + vm_compute. discriminate.
    + reflexivity.
    + reflexivity.
    + vm_compute. reflexivity.
Defined.

(** A face of 99 pixels in width is not compared with the gallery, though it
    shows the person of the only template. *)
Definition narrow_face : detection pic :=
  mkDetection 100 100 99 120 (mkPic 90 74 7 0) (mkPic 120 99 7 0) false.

Lemma small_face_is_unknown_witness :
  label with_alice narrow_face = Some Unknown /\
  forall (now : Q) (a' : App pic) (out : list action),
    face_step now narrow_face with_alice = Some (a', out) ->
    exists save_face rest,
      out = FaceSeen (center_x narrow_face) (center_y narrow_face) now
              save_face Unknown :: rest.
Proof.
  apply (small_face_is_unknown pic resize80 ncc with_alice narrow_face).
  left. vm_compute. reflexivity.
Defined.

(** *** Enrolment *)

(** Two crops of person 7, the second one four times the area of the first,
    and one crop of person 9. *)
Definition small_crop : pic := mkPic 100 100 7 1.
Definition large_crop : pic := mkPic 200 200 7 2.
Definition other_crop : pic := mkPic 150 150 9 3.

Definition three_buffered : App pic :=
  mkApp true (Some true) 0 [] 3 (65 # 100) [] [] 1
    [small_crop; large_crop; other_crop] 0 [].

Definition three_buffered_run : App pic * list action * bool :=
  Eval vm_compute in enrol three_buffered.

Lemma toy_shape_resize80 (i : pic) : shape (resize80 i) = (80, 80).
Proof. reflexivity. Qed.

Lemma enrolment_three_crops_witness :
  (pic_h small_crop * pic_w small_crop < pic_h large_crop * pic_w large_crop) /\
  known_faces (fst (fst three_buffered_run)) = [mkPic 80 80 7 1] /\
  known_face_names (fst (fst three_buffered_run)) = ["Person_1"%string] /\
  next_person_id (fst (fst three_buffered_run)) = 2 /\
  unknown_faces_buffer (fst (fst three_buffered_run)) = [].
Proof.
  split; [vm_compute; reflexivity|].
  assert (Hrun : enrol three_buffered
                 = (fst (fst three_buffered_run), snd (fst three_buffered_run),
                    snd three_buffered_run))
    by (vm_compute; reflexivity).
  pose proof
    (enrolment_three_crops pic shape resize80 bgr2gray gray2bgr ncc
       toy_shape_resize80 three_buffered
       (fst (fst three_buffered_run)) small_crop large_crop other_crop
       (snd (fst three_buffered_run)) (snd three_buffered_run)
       (or_introl eq_refl)
       ltac:(split; vm_compute; reflexivity)
       ltac:(split; vm_compute; discriminate)
       ltac:(split; vm_compute; discriminate)
       Hrun) as H.
  destruct H as (_ & Hfaces & Hnames & Hid & Hbuf).
  vm_compute in Hfaces, Hnames, Hid, Hbuf. vm_compute.
  repeat split; assumption.
Defined.

Definition two_buffered : App pic :=
  mkApp true (Some true) 0 [] 3 (65 # 100) [alice] ["Alice"%string] 1
    [small_crop; large_crop] 0 [].

Lemma process_unknown_faces_small_buffer_witness :
  enrol two_buffered = (two_buffered, [], false).
Proof.
  apply (process_unknown_faces_small_buffer pic shape resize80 bgr2gray
           gray2bgr ncc two_buffered).
  vm_compute. lia.
Defined.

(** *** The error budget *)

(** Five reads in a row fail; the camera re-opens each time. *)
Definition five_failed_reads : list (event pic) :=
  [failed_read true; failed_read true; failed_read true; failed_read true;
   failed_read true].

Definition five_failed_reads_run : App pic * list action :=
  Eval vm_compute in loop five_failed_reads started.

Definition sixth_read_run : App pic * list action :=
  Eval vm_compute in
    loop (five_failed_reads ++ [good_read (frame_with 1 [])]) started.

(** C5 fails as stated: after five consecutive failed reads the session is
    still running with its camera opened, and the next iteration reads
    again. *)
Lemma five_failed_reads_keep_running :
  loop five_failed_reads started = five_failed_reads_run /\
  filter is_read (snd five_failed_reads_run)
  = [CamRead false; CamRead false; CamRead false; CamRead false;
     CamRead false] /\
  running (fst five_failed_reads_run) = true /\
  cap (fst five_failed_reads_run) = Some true /\
  ~ (running (fst five_failed_reads_run) = false) /\
  loop (five_failed_reads ++ [good_read (frame_with 1 [])]) started
  = sixth_read_run /\
  reads (snd sixth_read_run) = 6%nat.
Proof.
  repeat split; try (vm_compute; reflexivity).
  vm_compute. discriminate.
Qed.

(** A session that has counted five errors, its capture not opened. *)
Definition five_errors : App pic :=
  mkApp true (Some false) 5 [] 3 (65 # 100) [] [] 1 [] 0 [].

Definition sixth_error_run : App pic * list action :=
  Eval vm_compute in step failed_open five_errors.

Definition six_failures : list (event pic) :=
  [failed_read false; failed_open; failed_open; failed_open; failed_open;
   failed_open; good_read (frame_with 1 [])].

Definition six_failures_run : App pic * list action :=
  Eval vm_compute in loop six_failures started.

Lemma budget_exceeded_stops_session_witness :
  (running (fst sixth_error_run) = false /\
   cap (fst sixth_error_run) = None /\
   In CamRelease (snd sixth_error_run) /\
   forall evs, loop evs (fst sixth_error_run) = (fst sixth_error_run, [])) /\
  (running (fst six_failures_run) = false /\
   cap (fst six_failures_run) = None /\
   error_counts (snd six_failures_run) = [1; 2; 3; 4; 5; 6] /\
   reads (snd six_failures_run) = 1%nat).
Proof.
  split.
  - apply
      (proj1 (budget_exceeded_stops_session pic shape resize80 bgr2gray
                gray2bgr ncc)
         failed_open five_errors (fst sixth_error_run) (snd sixth_error_run)).
    + vm_compute. discriminate.
    + vm_compute. reflexivity.
    + vm_compute. reflexivity.
  - apply
      (proj2 (budget_exceeded_stops_session pic shape resize80 bgr2gray
                gray2bgr ncc)
         started (fst six_failures_run) (failed_read false)
         failed_open failed_open failed_open failed_open failed_open
         [good_read (frame_with 1 [])] (snd six_failures_run)).
    + reflexivity.
    + reflexivity.
    + reflexivity.
    + reflexivity.
    + reflexivity.
    + repeat constructor.
    + vm_compute. reflexivity.
Defined.

(** Eight iterations, seven of which fail to read and re-open the camera. *)
Definition seven_failed_reads : list (event pic) :=
  [failed_read true; failed_read true; failed_read true;
   good_read (frame_with 1 [face_at 100 100 7]);
   failed_read true; failed_read true; failed_read true; failed_read true].

Definition one_failed_read_run : App pic * list action :=
  Eval vm_compute in step (failed_read true) started.

Definition seven_failed_reads_run : App pic * list action :=
  Eval vm_compute in loop seven_failed_reads started.

Lemma reopen_resets_error_count_witness :
  (camera_error_count (fst one_failed_read_run) = 0 /\
   cap (fst one_failed_read_run) = Some true /\
   after_failed_read (snd one_failed_read_run)
   = Some [ErrorCount 1; CamRelease; CamOpen true]) /\
  (running (fst seven_failed_reads_run) = true /\
   reads (snd seven_failed_reads_run) = 8%nat /\
   error_counts (snd seven_failed_reads_run) = [1; 1; 1; 1; 1; 1; 1] /\
   camera_error_count (fst seven_failed_reads_run) = 0).
Proof.
  split.
  - destruct
      (proj1 (reopen_resets_error_count pic shape resize80 bgr2gray gray2bgr
                ncc)
         (failed_read true) started (fst one_failed_read_run)
         (snd one_failed_read_run))
      as (Hcount & Hcap & _ & _ & Hafter).
    + split; [reflexivity | vm_compute; reflexivity].
    + reflexivity.
    + vm_compute. reflexivity.
    + split; [exact Hcount|]. split; [exact Hcap|]. exact Hafter.
  - destruct
      (proj2 (reopen_resets_error_count pic shape resize80 bgr2gray gray2bgr
                ncc)
         seven_failed_reads started (fst seven_failed_reads_run)
         (snd seven_failed_reads_run))
      as (Hrun & _ & _ & Hreads & _ & _ & Hclean).
    + reflexivity.
    + reflexivity.
    + reflexivity.
    + repeat constructor.
    + vm_compute. reflexivity.
    + destruct Hclean as [Hcounts Hcount]; [vm_compute; reflexivity|].
      split; [exact Hrun|]. split; [exact Hreads|].
      split; [exact Hcounts | exact Hcount].
Defined.

(** A frame on which one of the OpenCV calls before the face loop raises,
    then a failed read that is followed by a successful re-open. *)
Definition raise_then_fail : list (event pic) :=
  [good_read (mkFrame 1 true [] (mkPic 480 640 0 1)); failed_read true].

Definition raise_then_fail_run : App pic * list action :=
  Eval vm_compute in loop raise_then_fail started.

(** C10 fails as stated: in a run from a started session in which the one
    failed read is followed by a successful re-open, the count compared
    with the budget after that read is 2. The exception caught in the
    iteration before had counted one error (line 1026), and the failed read
    added to it (line 791) before the re-open set the count to 0. *)
Lemma caught_exception_then_failed_read_counts_two :
  running started = true /\ cap started = Some true /\
  camera_error_count started = 0 /\
  Forall (fun ev => ev_read ev = None -> ev_reopen ev = true) raise_then_fail /\
  loop raise_then_fail started = raise_then_fail_run /\
  snd raise_then_fail_run
  = [CamRead true; Status error_status; ErrorCount 1;
     CamRead false; ErrorCount 2; CamRelease; CamOpen true] /\
  error_counts (snd raise_then_fail_run) = [1; 2] /\
  ~ Forall (fun n => n <= 1) (error_counts (snd raise_then_fail_run)) /\
  running (fst raise_then_fail_run) = true /\
  camera_error_count (fst raise_then_fail_run) = 0.
Proof.
  repeat split; try (vm_compute; reflexivity).
  - repeat constructor.
  - vm_compute. intros H. inversion H as [|? ? _ Hrest]; subst.
    inversion Hrest as [|? ? Hle _]; subst. apply Hle. reflexivity.
Qed.

(** *** The display queue *)

Definition shot (n : Z) : pic := mkPic 480 640 0 n.

Definition full_queue : App pic :=
  mkApp true (Some true) 0 [] 3 (65 # 100) [] [] 1 [] 0
    [shot 1; shot 2; shot 3; shot 4; shot 5].

Definition sixth_frame : frame_in pic := mkFrame 1 false [] (shot 6).

Definition sixth_frame_run : App pic * list action * bool :=
  Eval vm_compute in frame_step sixth_frame full_queue.

(** C6 fails as stated: the frame produced while the queue is full is not
    kept, and the oldest queued frame is not dropped. *)
Lemma full_queue_keeps_oldest_frame :
  frame_step sixth_frame full_queue = sixth_frame_run /\
  frame_queue (fst (fst sixth_frame_run))
  = [shot 1; shot 2; shot 3; shot 4; shot 5] /\
  ~ In (frame_rgb pic sixth_frame) (frame_queue (fst (fst sixth_frame_run))) /\
  In (shot 1) (frame_queue (fst (fst sixth_frame_run))).
Proof.
  repeat split; try (vm_compute; reflexivity).
  - vm_compute. intros H.
    repeat (destruct H as [H|H]; [discriminate H|]). exact H.
  - left. reflexivity.
Qed.

Lemma full_queue_drops_new_frame_witness :
  frame_queue (fst (fst sixth_frame_run)) = frame_queue full_queue /\
  (length (frame_queue (fst (fst sixth_frame_run))) <= frame_queue_maxlen)%nat.
Proof.
  pose proof
    (full_queue_drops_new_frame pic shape resize80 bgr2gray gray2bgr ncc
       sixth_frame full_queue (fst (fst sixth_frame_run))
       (snd (fst sixth_frame_run))
       ltac:(vm_compute; reflexivity)) as (_ & Hfull & Hbound).
  split.
  - apply Hfull. vm_compute. lia.
  - apply Hbound. vm_compute. lia.
Defined.

Definition three_queued : App pic :=
  mkApp true (Some true) 0 [] 3 (65 # 100) [] [] 1 [] 0
    [shot 1; shot 2; shot 3].

(** C7 fails as stated: with three frames queued, the poll shows the first
    one queued, not the latest, and the next poll shows the second. *)
Lemma update_gui_shows_head_not_latest :
  snd (update_gui three_queued) = Some (shot 1) /\
  snd (update_gui three_queued) <> Some (shot 3) /\
  frame_queue (fst (update_gui three_queued)) = [shot 2; shot 3] /\
  snd (update_gui (fst (update_gui three_queued))) = Some (shot 2).
Proof.
  repeat split; try (vm_compute; reflexivity).
  vm_compute. discriminate.
Qed.

Lemma update_gui_shows_oldest_witness :
  update_gui three_queued
  = (set_frame_queue [shot 2; shot 3] three_queued, Some (shot 1)).
Proof.
  apply (proj1 (update_gui_shows_oldest pic) three_queued (shot 1)
           [shot 2; shot 3]).
  reflexivity.
Defined.

(** *** A run that enrols and recognises *)

(** Three unknown faces at three places, two of them of person 7; at time 6
    the enrolment pass runs and person 7 is seen again. *)
Definition enrol_events : list (event pic) :=
  [good_read (frame_with 1 [face_at 100 100 7]);
   good_read (frame_with 2 [face_at 400 100 7]);
   good_read (frame_with 3 [face_at 100 400 9]);
   good_read (frame_with 6 [face_at 400 400 7])].

Definition enrol_run : App pic * list action :=
  Eval vm_compute in loop enrol_events started.

Lemma detection_loop_reads_on_opened_witness :
  reads_on_opened true (snd six_failures_run) = true /\
  camera_after true (snd six_failures_run) = false.
Proof.
  apply (detection_loop_reads_on_opened pic shape resize80 bgr2gray gray2bgr
           ncc six_failures started (fst six_failures_run)
           (snd six_failures_run)).
  vm_compute. reflexivity.
Defined.

Lemma detection_loop_error_count_witness :
  Forall (fun n => 1 <= n <= max_camera_errors + 1)
    (error_counts (snd six_failures_run)) /\
  ((running (fst six_failures_run) = true /\
    0 <= camera_error_count (fst six_failures_run) <= max_camera_errors) \/
   (running (fst six_failures_run) = false /\
    cap (fst six_failures_run) = None /\
    camera_error_count (fst six_failures_run) = max_camera_errors + 1)).
Proof.
  apply (detection_loop_error_count pic shape resize80 bgr2gray gray2bgr ncc
           six_failures started).
  - reflexivity.
  - vm_compute. split; discriminate.
  - vm_compute. reflexivity.
Defined.

Lemma start_detection_outcomes_witness :
  start_detection true started = (started, []).
Proof.
  apply (proj1 (start_detection_outcomes pic started) true). reflexivity.
Defined.

Lemma detection_loop_gallery_grows_witness :
  (exists templates,
      known_faces (fst enrol_run) = known_faces started ++ templates /\
      known_face_names (fst enrol_run) =
        known_face_names started
        ++ map person_name (new_ids (next_person_id started) (length templates)) /\
      next_person_id (fst enrol_run)
      = next_person_id started + Z.of_nat (length templates)) /\
  (length (known_face_names started) = length (known_faces started) ->
   length (known_face_names (fst enrol_run)) = length (known_faces (fst enrol_run))).
Proof.
  apply (detection_loop_gallery_grows pic shape resize80 bgr2gray gray2bgr ncc
           enrol_events started (fst enrol_run) (snd enrol_run)).
  vm_compute. reflexivity.
Defined.

Lemma recognise_never_raises_witness :
  (exists name,
      label with_alice (face_at 100 100 7) = Some name /\
      (name = Unknown \/ In name (known_face_names with_alice))) /\
  (forall now,
      det_cv_error pic (face_at 100 100 7) = false ->
      face_step now (face_at 100 100 7) with_alice <> None).
Proof.
  apply (recognise_never_raises pic shape resize80 bgr2gray gray2bgr ncc
           with_alice (face_at 100 100 7)).
  reflexivity.
Defined.

Lemma lower_threshold_keeps_matches_witness :
  label (update_match_threshold (50 # 100) with_alice) (face_at 100 100 7)
  = Some "Alice"%string.
Proof.
  apply (lower_threshold_keeps_matches pic resize80 ncc with_alice
           (face_at 100 100 7) (50 # 100) (65 # 100) "Alice"%string).
  - vm_compute. discriminate.
  - vm_compute. reflexivity.
  - discriminate.
Defined.

Lemma save_interval_monotone_witness :
  save_face_of (SAVE_INTERVAL (update_save_interval pic 1 (fst first_sighting)))
    (saved_faces (fst first_sighting)) 160 160 5 = true /\
  save_face_of (SAVE_INTERVAL (fst first_sighting))
    (saved_faces (fst first_sighting)) 160 160 2 = false.
Proof.
  split.
  - apply (proj1 (save_interval_monotone pic (fst first_sighting) 160 160 5)
             1%Q 3%Q).
    + vm_compute. discriminate.
    + vm_compute. reflexivity.
  - apply (proj2 (proj2 (save_interval_monotone pic (fst first_sighting)
                           160 160 2))
             (160, 160, 1%Q)).
    + left. reflexivity.
    + vm_compute. reflexivity.
    + vm_compute. reflexivity.
Defined.

Definition second_look : App pic * list action * bool :=
  Eval vm_compute in
    frame_step (frame_with 5 [face_at 100 100 7]) (fst first_sighting).

Lemma complete_frame_prunes_witness :
  saved_faces (fst (fst second_look)) = [(160, 160, 5%Q)] /\
  Forall (fun s => (5 - st s < 3)%Q) (saved_faces (fst (fst second_look))) /\
  Forall (fun s => st s = 5%Q) (accepted (snd (fst second_look))).
Proof.
  pose proof
    (complete_frame_prunes pic shape resize80 bgr2gray gray2bgr ncc
       (frame_with 5 [face_at 100 100 7]) (fst first_sighting)
       (fst (fst second_look)) (snd (fst second_look))
       ltac:(vm_compute; reflexivity)) as (Hsaved & Hyoung & Hstamp).
  split; [|split].
  - rewrite Hsaved. vm_compute. reflexivity.
  - exact Hyoung.
  - exact Hstamp.
Defined.

Lemma face_is_buffered_or_logged_witness :
  exists name,
    label started (face_at 100 100 7) = Some name /\
    let save_face :=
      save_face_of (SAVE_INTERVAL started) (saved_faces started)
        (center_x (face_at 100 100 7)) (center_y (face_at 100 100 7)) 1 in
    (save_face = false -> fst first_sighting = started) /\
    unknown_faces_buffer (fst first_sighting) =
      (if save_face && String.eqb name Unknown
       then unknown_faces_buffer started ++ [det_face_img pic (face_at 100 100 7)]
       else unknown_faces_buffer started) /\
    (forall n, In (LogAttendance n) (snd first_sighting) <->
               (save_face = true /\ name <> Unknown /\ n = name)) /\
    same_gallery pic started (fst first_sighting).
Proof.
  apply (face_is_buffered_or_logged pic resize80 ncc 1%Q (face_at 100 100 7)
           started (fst first_sighting) (snd first_sighting)).
  vm_compute. reflexivity.
Defined.


(** The same faces again, after the gallery has been cleared. *)
Definition later_events : list (event pic) :=
  [good_read (frame_with 10 [face_at 100 100 7]);
   good_read (frame_with 11 [face_at 400 100 7]);
   good_read (frame_with 12 [face_at 100 400 9]);
   good_read (frame_with 18 [face_at 400 400 7])].

Definition cleared_run : App pic * list action :=
  Eval vm_compute in
    loop later_events (fst (clear_known_faces pic true (fst enrol_run))).

Lemma clear_known_faces_restarts_numbering_witness :
  known_face_names (fst cleared_run) = ["Person_1"%string] /\
  known_face_names (fst cleared_run)
  = map person_name (new_ids 1 (length (known_faces (fst cleared_run)))).
Proof.
  split; [vm_compute; reflexivity|].
  pose proof
    (proj2 (clear_known_faces_restarts_numbering pic shape resize80
              bgr2gray gray2bgr ncc (fst enrol_run)))
    as (_ & _ & _ & _ & Hnames).
  apply (Hnames later_events (fst cleared_run) (snd cleared_run)).
  vm_compute. reflexivity.
Defined.

(** *** Loading *)

(** A decimal reader for [int]. *)
Definition toy_int (s : string) : option Z :=
  option_map Z.of_int (NilZero.int_of_string s).

Lemma toy_int_decimal (k : Z) :
  toy_int (NilZero.string_of_int (Z.to_int k)) = Some k.
Proof.
  unfold toy_int.
  assert (Hn : Z.to_int k <> Decimal.Pos Decimal.Nil /\
               Z.to_int k <> Decimal.Neg Decimal.Nil).
  { destruct k as [|p|p]; simpl; split; try discriminate;
      intros [= H]; exact (DecimalPos.Unsigned.to_uint_nonnil p H). }
  destruct Hn as [H1 H2]. rewrite NilZero.isi by assumption. simpl.
  rewrite DecimalZ.of_to. reflexivity.
Qed.

Definition toy_images : list (string * list pic) :=
  [("Person_3"%string, [mkPic 200 200 3 0]);
   ("Alice"%string, [mkPic 200 200 7 1; mkPic 100 100 8 2]);
   ("Person_x"%string, [mkPic 150 150 5 3]);
   ("Person_12_20250101_101010"%string, [mkPic 150 150 6 4])].

Definition loaded : App pic :=
  Eval vm_compute in load_known_faces pic resize80 toy_int toy_images fresh.

Lemma load_known_faces_next_id_witness :
  known_faces loaded
  = [mkPic 80 80 3 0; mkPic 80 80 7 1; mkPic 80 80 8 2; mkPic 80 80 5 3;
     mkPic 80 80 6 4] /\
  known_face_names loaded
  = ["Person_3"; "Alice"; "Alice"; "Person_x";
     "Person_12_20250101_101010"]%string /\
  length (known_face_names loaded) = length (known_faces loaded) /\
  next_person_id loaded = 13 /\
  next_person_id fresh <= next_person_id loaded /\
  12 < next_person_id loaded.
Proof.
  pose proof (load_known_faces_next_id pic resize80 toy_int toy_images fresh)
    as (Hfaces & Hnames & Hlen & Hmono & Habove & _).
  split;
    [refine (eq_trans _ (eq_trans Hfaces _)); vm_compute; reflexivity|].
  split;
    [refine (eq_trans _ (eq_trans Hnames _)); vm_compute; reflexivity|].
  split; [exact (Hlen eq_refl)|].
  split; [|split].
  - vm_compute. reflexivity.
  - exact Hmono.
  - apply (Habove "Person_12_20250101_101010"%string 12).
    + vm_compute. auto 6.
    + vm_compute. reflexivity.
Defined.

(** Faces of persons the loaded gallery does not hold. *)
Definition stranger_events : list (event pic) :=
  [good_read (frame_with 1 [face_at 100 100 20]);
   good_read (frame_with 2 [face_at 400 100 20]);
   good_read (frame_with 3 [face_at 100 400 21]);
   good_read (frame_with 6 [face_at 400 400 20])].

Definition loaded_run : App pic * list action :=
  Eval vm_compute in
    loop stranger_events (fst (start_detection true loaded)).

Lemma names_after_load_fresh_witness :
  known_face_names (fst loaded_run)
  = known_face_names loaded ++ ["Person_13"%string] /\
  exists new_names,
    known_face_names (fst loaded_run) = known_face_names loaded ++ new_names /\
    NoDup new_names /\
    forall n, In n new_names -> ~ In n (known_face_names loaded).
Proof.
  split; [vm_compute; reflexivity|].
  apply (names_after_load_fresh pic shape resize80 bgr2gray gray2bgr ncc
           toy_int toy_int_decimal toy_images true stranger_events fresh
           (fst loaded_run) (snd loaded_run)).
  vm_compute. reflexivity.
Defined.

(** *** More on enrolment, attendance and the display *)

Lemma enrolment_pass_general_witness :
  snd three_buffered_run = false /\
  unknown_faces_buffer (fst (fst three_buffered_run)) = [] /\
  known_faces (fst (fst three_buffered_run)) = [mkPic 80 80 7 1] /\
  (2 * 1 <= length (unknown_faces_buffer three_buffered))%nat.
Proof.
  pose proof
    (enrolment_pass_general pic shape resize80 bgr2gray gray2bgr ncc
       toy_shape_resize80 three_buffered (fst (fst three_buffered_run))
       (snd (fst three_buffered_run)) (snd three_buffered_run)
       ltac:(vm_compute; lia) ltac:(vm_compute; reflexivity))
    as (Hraised & Hbuffer & Hfaces & _ & _ & Hbound & _).
  split; [exact Hraised|]. split; [exact Hbuffer|]. split.
  - rewrite Hfaces. vm_compute. reflexivity.
  - exact Hbound.
Defined.

Lemma attendance_only_for_gallery_names_witness :
  logged (snd enrol_run) = ["Person_1"%string] /\
  Forall (fun n => n <> Unknown /\ In n (known_face_names (fst enrol_run)))
    (logged (snd enrol_run)).
Proof.
  split; [vm_compute; reflexivity|].
  apply (attendance_only_for_gallery_names pic shape resize80 bgr2gray
           gray2bgr ncc enrol_events started (fst enrol_run) (snd enrol_run)).
  - reflexivity.
  - vm_compute. reflexivity.
Defined.

(** Seven frames produced while the window polls twice: the queue, empty at
    the start, takes five of them. *)
Definition seven_turns : list (turn pic) :=
  [Worker pic (mkFrame 1 false [] (shot 1));
   Worker pic (mkFrame 2 false [] (shot 2));
   Gui pic;
   Worker pic (mkFrame 3 false [] (shot 3));
   Worker pic (mkFrame 4 false [] (shot 4));
   Worker pic (mkFrame 5 false [] (shot 5));
   Worker pic (mkFrame 6 false [] (shot 6));
   Worker pic (mkFrame 7 false [] (shot 7));
   Gui pic].

Definition seven_turns_run : App pic * list pic :=
  Eval vm_compute in
    take_turns pic shape resize80 bgr2gray gray2bgr ncc seven_turns started.

Lemma frames_shown_in_order_witness :
  snd seven_turns_run = [shot 1; shot 2] /\
  frame_queue (fst seven_turns_run) = [shot 3; shot 4; shot 5; shot 6] /\
  (exists kept,
      subseq kept (produced pic seven_turns) /\
      snd seven_turns_run ++ frame_queue (fst seven_turns_run)
      = frame_queue started ++ kept) /\
  (length (frame_queue (fst seven_turns_run)) <= frame_queue_maxlen)%nat.
Proof.
  split; [vm_compute; reflexivity|]. split; [vm_compute; reflexivity|].
  pose proof
    (frames_shown_in_order pic shape resize80 bgr2gray gray2bgr ncc
       seven_turns started (fst seven_turns_run) (snd seven_turns_run)
       ltac:(vm_compute; reflexivity)) as [Hkept Hbound].
  split; [exact Hkept|]. apply Hbound. vm_compute. lia.
Defined.

Lemma take_screenshot_newest_queued_witness :
  fst (take_screenshot pic three_queued) = Some (shot 3) /\
  fst (take_screenshot pic (fst (fst sixth_frame_run))) = Some (shot 5).
Proof.
  pose proof
    (take_screenshot_newest_queued pic shape resize80 bgr2gray gray2bgr ncc)
    as H.
  split.
  - apply (proj1 (H three_queued) [shot 1; shot 2] (shot 3)). reflexivity.
  - destruct (H full_queue) as (_ & _ & _ & Hframe).
    rewrite (Hframe sixth_frame (fst (fst sixth_frame_run))
               (snd (fst sixth_frame_run)) ltac:(vm_compute; reflexivity)).
    vm_compute. reflexivity.
Defined.

Definition small_window : Window pic := mkWindow pic started "640x480".

Lemma change_resolution_restarts_witness :
  change_resolution pic "640x480" true small_window = (small_window, []) /\
  snd (change_resolution pic "800x600" true small_window)
  = [CamRelease; CamOpen true; Status "Resolution changed to 800x600"] /\
  running (app pic (fst (change_resolution pic "800x600" false small_window)))
  = false.
Proof.
  split; [|split].
  - apply (proj1 (change_resolution_restarts pic "640x480" true small_window)).
    reflexivity.
  - destruct (proj2 (change_resolution_restarts pic "800x600" true small_window)
                ltac:(discriminate)) as (_ & _ & _ & Hrun).
    destruct (Hrun eq_refl) as (_ & _ & _ & Hout). rewrite Hout.
    vm_compute. reflexivity.
  - destruct (proj2 (change_resolution_restarts pic "800x600" false small_window)
                ltac:(discriminate)) as (_ & _ & _ & Hrun).
    destruct (Hrun eq_refl) as (Hrunning & _). exact Hrunning.
Defined.

End Toy.
